(** * Tube Roulette: the shell sequence, the items and the turn engine

    A shallow embedding of [buckshot_roulette_cli.py].  Python objects that
    are mutated in place are threaded through a state-and-exception monad;
    the two actors of a game are addressed by identity ([Who]), so that the
    aliasing of [user], [target], [game.player] and [game.dealer] is kept.
    The standard input and the random source are explicit parts of the
    world: every theorem quantifies over all of their possible contents. *)

From Stdlib Require Import ZArith QArith List Bool String Lia.
From stdpp Require Import base option list gmap.
Import ListNotations.

Close Scope Q_scope.
Close Scope string_scope.
Open Scope Z_scope.

(** ** Core model *)

Inductive Shell := LIVE | BLANK.

#[global] Instance Shell_eq_dec : EqDecision Shell.
Proof. solve_decision. Defined.

(** [Shell.BLANK if s is Shell.LIVE else Shell.LIVE] *)
Definition flip_shell (s : Shell) : Shell :=
  match s with LIVE => BLANK | BLANK => LIVE end.

(** The exceptions the program can raise. *)
Inductive Exn :=
| RuntimeError   (* "Tried to fire an empty shotgun." *)
| IndexError     (* list index out of range *)
| ValueError     (* empty range for randint, sample larger than population, int() *)
| EOFError.      (* input() at end of input *)

(** The outcome of a call: a value, a raised exception, or [OutOfFuel] for
    the loops that are run with a bound on their iterations (the bound is
    shown to be large enough, see [item_use_total] and
    [use_item_flow_total]). *)
Inductive Res (A : Type) :=
| Ok (a : A)
| Raise (e : Exn)
| OutOfFuel.
Arguments Ok {A} a.
Arguments Raise {A} e.
Arguments OutOfFuel {A}.

(** A computation over a mutable state [S]: the state survives an
    exception, as the Python objects do. *)
Definition M (S A : Type) : Type := S -> Res A * S.

Definition ret {S A} (a : A) : M S A := fun s => (Ok a, s).

Definition bind {S A B} (m : M S A) (f : A -> M S B) : M S B :=
  fun s =>
    match m s with
    | (Ok a, s') => f a s'
    | (Raise e, s') => (Raise e, s')
    | (OutOfFuel, s') => (OutOfFuel, s')
    end.

Definition raise {S A} (e : Exn) : M S A := fun s => (Raise e, s).
Definition gets {S A} (f : S -> A) : M S A := fun s => (Ok (f s), s).
Definition modify {S} (f : S -> S) : M S unit := fun s => (Ok tt, f s).

Notation "x <- m ;; k" := (bind m (fun x => k))
  (at level 100, m at next level, right associativity).
Notation "m ;; k" := (bind m (fun _ => k))
  (at level 100, right associativity).

(** *** The random source

    The generator is an infinite sequence of draws; a call consumes the
    first one.  [randbelow n] reduces the draw below [n]. *)

Definition Rng : Type := nat -> nat.

Definition rng_tail (r : Rng) : Rng := fun i => r (S i).

Definition randbelow (n : nat) : M Rng nat :=
  fun r => (Ok (r 0%nat mod n)%nat, rng_tail r).

(** [random.randint(a, b)]: an integer of [[a, b]], [ValueError] when the
    range is empty. *)
Definition randint (a b : Z) : M Rng Z :=
  if b <? a then raise ValueError
  else k <- randbelow (Z.to_nat (b - a + 1)) ;; ret (a + Z.of_nat k).

(** [random.random() < p]: the draw is read as one of the 2^53 floats
    [k / 2^53] of [[0, 1)] that the generator returns, and [p] is the exact
    value of the double it is compared with. *)
Definition random_lt (p : Q) : M Rng bool :=
  fun r =>
    let k := Z.of_nat (r 0%nat) mod 2 ^ 53 in
    (Ok (negb (Qle_bool p (k # 2 ^ 53))), rng_tail r).

(** Selection without replacement: [k] times, an index below the number of
    elements left is drawn and that element is taken out of the pool. *)
Fixpoint draw_without_replacement {A} (k : nat) (pool : list A) : M Rng (list A) :=
  match k with
  | O => ret []
  | S k' =>
      j <- randbelow (length pool) ;;
      match pool !! j with
      | Some x => rest <- draw_without_replacement k' (delete j pool) ;; ret (x :: rest)
      | None => raise ValueError
      end
  end.

(** [random.sample(pool, k)] *)
Definition sample {A} (pool : list A) (k : Z) : M Rng (list A) :=
  if (k <? 0) || (Z.of_nat (length pool) <? k) then raise ValueError
  else draw_without_replacement (Z.to_nat k) pool.

(** [random.shuffle(l)]: every element is drawn, none twice. *)
Definition shuffle {A} (l : list A) : M Rng (list A) :=
  draw_without_replacement (length l) l.

(** [random.choice(l)] *)
Definition choice {A} (l : list A) : M Rng A :=
  match l with
  | [] => raise IndexError
  | _ =>
      j <- randbelow (length l) ;;
      match l !! j with
      | Some x => ret x
      | None => raise IndexError
      end
  end.

(** *** Shotgun *)

(** [index] is created as 0 and only ever incremented, so it is a natural
    number. *)
Record Shotgun := mkShotgun {
  shells : list Shell;
  index : nat   (* points at current chambered shell *)
}.

Definition set_index (i : nat) (g : Shotgun) : Shotgun :=
  {| shells := shells g; index := i |}.
Definition set_shells (l : list Shell) (g : Shotgun) : Shotgun :=
  {| shells := l; index := index g |}.

(** [list.count] *)
Definition count (s : Shell) (l : list Shell) : nat :=
  length (filter (fun x => x = s) l).

Module Shotgun.

(** [Shotgun.load] *)
Definition load (min_shells max_shells : Z) : M Rng Shotgun :=
  n <- randint min_shells max_shells ;;
  (* ensure at least 1 live and 1 blank *)
  live_count <- randint 1 (n - 1) ;;
  let blanks := n - live_count in
  let l := replicate (Z.to_nat live_count) LIVE ++ replicate (Z.to_nat blanks) BLANK in
  l' <- shuffle l ;;
  ret {| shells := l'; index := 0%nat |}.

Definition remaining (g : Shotgun) : Z :=
  Z.of_nat (length (shells g)) - Z.of_nat (index g).

(** [(live, blank)] over [shells[index:]] *)
Definition counts_remaining (g : Shotgun) : nat * nat :=
  let rem := drop (index g) (shells g) in
  (count LIVE rem, count BLANK rem).

Definition peek_current : M Shotgun Shell :=
  fun g =>
    match shells g !! index g with
    | Some s => (Ok s, g)
    | None => (Raise IndexError, g)
    end.

Definition fire : M Shotgun Shell :=
  fun g =>
    if (length (shells g) <=? index g)%nat then (Raise RuntimeError, g)
    else
      match shells g !! index g with
      | Some s => (Ok s, set_index (S (index g)) g)
      | None => (Raise IndexError, g)
      end.

Definition eject_current : M Shotgun Shell := fire.

Definition invert_current : M Shotgun unit :=
  fun g =>
    if (length (shells g) <=? index g)%nat then (Ok tt, g)
    else
      match shells g !! index g with
      | Some s => (Ok tt, set_shells (<[index g := flip_shell s]> (shells g)) g)
      | None => (Raise IndexError, g)
      end.

End Shotgun.

(** ** Items, knowledge and actors *)

Inductive ItemId :=
| MAGNIFYING_GLASS | BEER | HANDCUFFS | HAND_SAW
| INVERTER | BURNER_PHONE | CIGARETTE | ADRENALINE.

#[global] Instance ItemId_eq_dec : EqDecision ItemId.
Proof. solve_decision. Defined.

(** [list(ItemId)] *)
Definition all_items : list ItemId :=
  [MAGNIFYING_GLASS; BEER; HANDCUFFS; HAND_SAW;
   INVERTER; BURNER_PHONE; CIGARETTE; ADRENALINE].

Record Knowledge := mkKnowledge {
  current_known : option Shell;          (* from Magnifying Glass *)
  known_positions : gmap nat Shell       (* absolute shot index -> Shell *)
}.

(** [Knowledge()] *)
Definition Knowledge_new : Knowledge :=
  {| current_known := None; known_positions := ∅ |}.

Definition set_current_known (c : option Shell) (k : Knowledge) : Knowledge :=
  {| current_known := c; known_positions := known_positions k |}.
Definition set_known_positions (m : gmap nat Shell) (k : Knowledge) : Knowledge :=
  {| current_known := current_known k; known_positions := m |}.

Record Actor := mkActor {
  name : string;
  max_hp : Z;
  hp : Z;
  inventory : list ItemId;
  skip_next : bool;
  dmg_mult : Z;
  ai : bool;
  knowledge : Knowledge
}.

Definition set_hp (v : Z) (a : Actor) : Actor :=
  {| name := name a; max_hp := max_hp a; hp := v; inventory := inventory a;
     skip_next := skip_next a; dmg_mult := dmg_mult a; ai := ai a;
     knowledge := knowledge a |}.
Definition set_inventory (v : list ItemId) (a : Actor) : Actor :=
  {| name := name a; max_hp := max_hp a; hp := hp a; inventory := v;
     skip_next := skip_next a; dmg_mult := dmg_mult a; ai := ai a;
     knowledge := knowledge a |}.
Definition set_skip_next (v : bool) (a : Actor) : Actor :=
  {| name := name a; max_hp := max_hp a; hp := hp a; inventory := inventory a;
     skip_next := v; dmg_mult := dmg_mult a; ai := ai a;
     knowledge := knowledge a |}.
Definition set_dmg_mult (v : Z) (a : Actor) : Actor :=
  {| name := name a; max_hp := max_hp a; hp := hp a; inventory := inventory a;
     skip_next := skip_next a; dmg_mult := v; ai := ai a;
     knowledge := knowledge a |}.
Definition set_knowledge (v : Knowledge) (a : Actor) : Actor :=
  {| name := name a; max_hp := max_hp a; hp := hp a; inventory := inventory a;
     skip_next := skip_next a; dmg_mult := dmg_mult a; ai := ai a;
     knowledge := v |}.

(** [list.remove]: the first occurrence goes. *)
Fixpoint remove_first (x : ItemId) (l : list ItemId) : list ItemId :=
  match l with
  | [] => []
  | y :: l' => if decide (y = x) then l' else y :: remove_first x l'
  end.

Module Actor.

Definition is_alive (a : Actor) : bool := 0 <? hp a.

Definition heal (n : Z) (a : Actor) : Actor :=
  set_hp (Z.min (max_hp a) (hp a + n)) a.

Definition hurt (n : Z) (a : Actor) : Actor :=
  set_hp (hp a - n) a.

Definition take_item (item_id : ItemId) (a : Actor) : Actor :=
  set_inventory (inventory a ++ [item_id]) a.

Definition pop_item (item_id : ItemId) (a : Actor) : option ItemId * Actor :=
  if decide (item_id ∈ inventory a)
  then (Some item_id, set_inventory (remove_first item_id (inventory a)) a)
  else (None, a).

End Actor.

(** ** Game engine *)

(** [seed] is left out: it selects the random source, which the model
    takes as it is. *)
Record Config := mkConfig {
  min_shells : Z;
  max_shells : Z;
  player_max_hp : Z;
  dealer_max_hp : Z;
  items_per_round : Z * Z   (* inclusive range per actor per new round *)
}.

(** [Config()] *)
Definition Config_default : Config :=
  {| min_shells := 2; max_shells := 8; player_max_hp := 4; dealer_max_hp := 4;
     items_per_round := (2, 4) |}.

(** The two actor objects of a game. *)
Inductive Who := Player | Dealer.

#[global] Instance Who_eq_dec : EqDecision Who.
Proof. solve_decision. Defined.

(** What [game.log] receives: one constructor per message of the source,
    with the values that the message interpolates. *)
Inductive Msg :=
| LogMagnifyingGlass (user : string) (shell : Shell)
| LogBeerEmpty (user : string)
| LogBeer (user : string) (s : Shell)
| LogHandcuffs (user target : string)
| LogHandSaw (user : string)
| LogInverter (user : string)
| LogBurnerPhoneUnfortunate (user : string)
| LogBurnerPhone (shell_no : nat) (shell : Shell)
| LogCigarette (user : string) (before after : Z)
| LogAdrenalineNothing (user : string)
| LogAdrenalineCancel (user : string)
| LogAdrenalineSteal (user : string) (item : ItemId) (target : string)
| LogSkip (actor : string)
| LogNewRound
| LogFireLive (shooter target : string) (dmg hp_left : Z)
| LogFireBlank (shooter target : string).

Record Game := mkGame {
  cfg : Config;
  player : Actor;
  dealer : Actor;
  turn : Who;
  shotgun : Shotgun;
  round_no : Z;
  transcript : list Msg
}.

Definition set_player (v : Actor) (g : Game) : Game :=
  {| cfg := cfg g; player := v; dealer := dealer g; turn := turn g;
     shotgun := shotgun g; round_no := round_no g; transcript := transcript g |}.
Definition set_dealer (v : Actor) (g : Game) : Game :=
  {| cfg := cfg g; player := player g; dealer := v; turn := turn g;
     shotgun := shotgun g; round_no := round_no g; transcript := transcript g |}.
Definition set_turn (v : Who) (g : Game) : Game :=
  {| cfg := cfg g; player := player g; dealer := dealer g; turn := v;
     shotgun := shotgun g; round_no := round_no g; transcript := transcript g |}.
Definition set_shotgun (v : Shotgun) (g : Game) : Game :=
  {| cfg := cfg g; player := player g; dealer := dealer g; turn := turn g;
     shotgun := v; round_no := round_no g; transcript := transcript g |}.
Definition set_round_no (v : Z) (g : Game) : Game :=
  {| cfg := cfg g; player := player g; dealer := dealer g; turn := turn g;
     shotgun := shotgun g; round_no := v; transcript := transcript g |}.
Definition set_transcript (v : list Msg) (g : Game) : Game :=
  {| cfg := cfg g; player := player g; dealer := dealer g; turn := turn g;
     shotgun := shotgun g; round_no := round_no g; transcript := v |}.

(** The object an actor reference denotes. *)
Definition actor (w : Who) (g : Game) : Actor :=
  match w with Player => player g | Dealer => dealer g end.

Definition set_actor (w : Who) (a : Actor) (g : Game) : Game :=
  match w with Player => set_player a g | Dealer => set_dealer a g end.

Definition upd_actor (w : Who) (f : Actor -> Actor) (g : Game) : Game :=
  set_actor w (f (actor w g)) g.

(** [Game.other]: [self.dealer if a is self.player else self.player] *)
Definition other (a : Who) : Who :=
  match a with Player => Dealer | Dealer => Player end.

(** A line typed by the human, as the prompts tell them apart after
    [strip] and [lower]: the empty line, a number, "s"/"self",
    "d"/"dealer", or anything else.  [LNum n] is a line of digits that
    [int] reads as [n]; [LBadNum] is a line for which [isdigit()] holds and
    [int] raises [ValueError] (a superscript digit such as U+00B2, or more
    digits than [int] converts).  At the end of the input [input()] raises
    [EOFError]. *)
Inductive Line := LEmpty | LNum (n : nat) | LBadNum | LSelf | LDealer | LJunk.

(** Everything the engine reads and writes. *)
Record World := mkWorld {
  game : Game;
  stdin : list Line;
  rng : Rng
}.

Definition set_game (v : Game) (w : World) : World :=
  {| game := v; stdin := stdin w; rng := rng w |}.
Definition set_stdin (v : list Line) (w : World) : World :=
  {| game := game w; stdin := v; rng := rng w |}.
Definition set_rng (v : Rng) (w : World) : World :=
  {| game := game w; stdin := stdin w; rng := v |}.

(** A call on the random source, a call on the shotgun, a read of the game
    and a mutation of the game, inside the engine. *)
Definition with_rng {A} (m : M Rng A) : M World A :=
  fun w => let (r, s) := m (rng w) in (r, set_rng s w).

Definition with_shotgun {A} (m : M Shotgun A) : M World A :=
  fun w => let (r, s) := m (shotgun (game w)) in (r, set_game (set_shotgun s (game w)) w).

Definition get {A} (f : Game -> A) : M World A := gets (fun w => f (game w)).

Definition update (f : Game -> Game) : M World unit :=
  modify (fun w => set_game (f (game w)) w).

(** [Game.log] *)
Definition log (msg : Msg) : M World unit :=
  update (fun g => set_transcript (transcript g ++ [msg]) g).

Definition set_known (w : Who) (c : option Shell) : M World unit :=
  update (upd_actor w (fun a => set_knowledge (set_current_known c (knowledge a)) a)).

Definition with_stdin {A} (m : M (list Line) A) : M World A :=
  fun w => let (r, s) := m (stdin w) in (r, set_stdin s w).

Definition name_of (w : Who) : M World string := get (fun g => name (actor w g)).

(** [actor.pop_item(item_id)] with the result dropped *)
Definition pop (w : Who) (item_id : ItemId) : M World unit :=
  update (upd_actor w (fun a => snd (Actor.pop_item item_id a))).

(** The input loop of [Game.prompt_choose_item]: lines are read until the
    empty line or a number of [idx_map]; [int(ans)] raises on a line of
    digits that it cannot convert. *)
Fixpoint read_choice (inv : list ItemId) (inp : list Line)
  : Res (option ItemId) * list Line :=
  match inp with
  | [] => (Raise EOFError, [])
  | LEmpty :: rest => (Ok None, rest)
  | LNum (S i) :: rest =>
      match inv !! i with
      | Some iid => (Ok (Some iid), rest)
      | None => read_choice inv rest
      end
  | LBadNum :: rest => (Raise ValueError, rest)
  | _ :: rest => read_choice inv rest
  end.

(** [Game.prompt_choose_item] *)
Definition prompt_choose_item (who : Who) : M World (option ItemId) :=
  a <- get (actor who) ;;
  if ai a || bool_decide (inventory a = []) then ret None
  else
    ans <- with_stdin (read_choice (inventory a)) ;;
    match ans with
    | None => ret None
    | Some iid => pop who iid ;; ret (Some iid)
    end.

(** ** Items impl *)

Definition MagnifyingGlass_use (user target : Who) : M World unit :=
  shell <- with_shotgun Shotgun.peek_current ;;
  set_known user (Some shell) ;;
  u <- name_of user ;;
  log (LogMagnifyingGlass u shell).

Definition Beer_use (user target : Who) : M World unit :=
  rem <- get (fun g => Shotgun.remaining (shotgun g)) ;;
  u <- name_of user ;;
  if rem =? 0 then log (LogBeerEmpty u)
  else
    s <- with_shotgun Shotgun.eject_current ;;
    set_known user None ;;
    set_known (other user) None ;;
    log (LogBeer u s).

Definition Handcuffs_use (user target : Who) : M World unit :=
  update (upd_actor target (set_skip_next true)) ;;
  u <- name_of user ;;
  t <- name_of target ;;
  log (LogHandcuffs u t).

Definition HandSaw_use (user target : Who) : M World unit :=
  update (upd_actor user (set_dmg_mult 2)) ;;
  u <- name_of user ;;
  log (LogHandSaw u).

Definition Inverter_use (user target : Who) : M World unit :=
  with_shotgun Shotgun.invert_current ;;
  (* Update knowledge if current_known set *)
  known <- get (fun g => current_known (knowledge (actor user g))) ;;
  match known with
  | Some k => set_known user (Some (flip_shell k))
  | None => ret tt
  end ;;
  u <- name_of user ;;
  log (LogInverter u).

Definition BurnerPhone_use (user target : Who) : M World unit :=
  rem <- get (fun g => Shotgun.remaining (shotgun g)) ;;
  u <- name_of user ;;
  if rem <=? 1 then log (LogBurnerPhoneUnfortunate u)
  else
    (* choose a random future shell (relative to current) *)
    rel_idx <- with_rng (randint 1 (rem - 1)) ;;
    sg <- get shotgun ;;
    let abs_idx := (index sg + Z.to_nat rel_idx)%nat in
    match shells sg !! abs_idx with
    | None => raise IndexError
    | Some shell =>
        update (upd_actor user (fun a =>
          set_knowledge
            (set_known_positions (<[abs_idx := shell]> (known_positions (knowledge a)))
               (knowledge a)) a)) ;;
        log (LogBurnerPhone (Z.to_nat rel_idx + 1) shell)
    end.

Definition Cigarette_use (user target : Who) : M World unit :=
  before <- get (fun g => hp (actor user g)) ;;
  update (upd_actor user (Actor.heal 1)) ;;
  u <- name_of user ;;
  after <- get (fun g => hp (actor user g)) ;;
  log (LogCigarette u before after).

(** [Adrenaline.use]; [registry] is what [ITEM_REGISTRY[steal_id].use]
    dispatches to. *)
Definition Adrenaline_use (registry : ItemId -> Who -> Who -> M World unit)
    (user target : Who) : M World unit :=
  t_inv <- get (fun g => inventory (actor target g)) ;;
  u <- name_of user ;;
  if bool_decide (t_inv = []) then log (LogAdrenalineNothing u)
  else
    (* Player chooses which to steal; AI steals random *)
    user_ai <- get (fun g => ai (actor user g)) ;;
    steal_id <- (if user_ai : bool
                 then s <- with_rng (choice t_inv) ;; ret (Some s)
                 else prompt_choose_item target) ;;
    match steal_id with
    | None => log (LogAdrenalineCancel u)
    | Some steal_id =>
        pop target steal_id ;;
        t <- name_of target ;;
        log (LogAdrenalineSteal u steal_id t) ;;
        (* Use immediately *)
        registry steal_id user target
    end.

(** The dispatch through [ITEM_REGISTRY].  Adrenaline may invoke a stolen
    Adrenaline, so the nesting of the calls is bounded by [fuel]. *)
Fixpoint item_use (fuel : nat) (iid : ItemId) (user target : Who) : M World unit :=
  match iid with
  | MAGNIFYING_GLASS => MagnifyingGlass_use user target
  | BEER => Beer_use user target
  | HANDCUFFS => Handcuffs_use user target
  | HAND_SAW => HandSaw_use user target
  | INVERTER => Inverter_use user target
  | BURNER_PHONE => BurnerPhone_use user target
  | CIGARETTE => Cigarette_use user target
  | ADRENALINE =>
      match fuel with
      | O => fun w => (OutOfFuel, w)
      | S fuel' => Adrenaline_use (item_use fuel') user target
      end
  end.

(** [ITEM_REGISTRY[iid].use(game, user, target)]: every nested steal takes
    an item of the target away, which bounds the nesting. *)
Definition ITEM_REGISTRY_use (iid : ItemId) (user target : Who) : M World unit :=
  fun w => item_use (S (length (inventory (actor target (game w))))) iid user target w.

(** ** Turn and AI *)

(** [Game.deal_items], for one actor and for both. *)
Definition deal_items_to (who : Who) : M World unit :=
  update (upd_actor who (set_inventory [])) ;;
  range <- get (fun g => items_per_round (cfg g)) ;;
  k <- with_rng (randint (fst range) (snd range)) ;;
  let pool := all_items in
  drawn <- with_rng (sample pool k) ;;
  update (upd_actor who (fun a => set_inventory (inventory a ++ drawn) a)) ;;
  (* clear knowledge each round *)
  update (upd_actor who (set_knowledge Knowledge_new)).

Definition deal_items : M World unit :=
  deal_items_to Player ;; deal_items_to Dealer.

(** The human loop of [Game.use_item_flow]; every iteration uses up an item
    of the actor, which bounds the iterations. *)
Fixpoint use_item_loop (fuel : nat) (who : Who) : M World unit :=
  match fuel with
  | O => fun w => (OutOfFuel, w)
  | S fuel' =>
      iid <- prompt_choose_item who ;;
      match iid with
      | None => ret tt
      | Some iid =>
          ITEM_REGISTRY_use iid who (other who) ;;
          (* show_state() only prints *)
          use_item_loop fuel' who
      end
  end.

(** [live_left / max(1, live_left + blank_left)], as the exact quotient:
    with fewer than 2^50 shells it compares against the thresholds 0.6 and
    0.5 as the rounded quotient does against the doubles. *)
Definition p_live_of (sg : Shotgun) : Q :=
  let '(live_left, blank_left) := Shotgun.counts_remaining sg in
  Z.of_nat live_left # Z.to_pos (Z.max 1 (Z.of_nat live_left + Z.of_nat blank_left)).

(** The float literals 0.35 and 0.15 as the doubles they are
    ([float.as_integer_ratio]); 0.5 and 0.25 are exact. *)
Definition double_0_35 : Q := 3152519739159347 # 9007199254740992.
Definition double_0_15 : Q := 5404319552844595 # 36028797018963968.

(** [c and random.random() < p]: the draw is made only when [c] holds. *)
Definition chance (c : bool) (p : Q) : M World bool :=
  if c then with_rng (random_lt p) else ret false.

Definition holds (who : Who) (iid : ItemId) (g : Game) : bool :=
  bool_decide (iid ∈ inventory (actor who g)).

(** [Game.ai_maybe_use_item]; the target of every item is [self.player]. *)
Definition ai_maybe_use_item (me : Who) : M World unit :=
  p_live <- get (fun g => p_live_of (shotgun g)) ;;
  (* If low HP and has Cigarette, 50% chance to heal *)
  c <- get (fun g => (hp (actor me g) <? max_hp (actor me g)) && holds me CIGARETTE g) ;;
  go <- chance c (1 # 2) ;;
  (if go : bool then pop me CIGARETTE ;; ITEM_REGISTRY_use CIGARETTE me Player else ret tt) ;;
  (* If we don't know current shell and have magnifying glass, sometimes use it *)
  c <- get (fun g => bool_decide (current_known (knowledge (actor me g)) = None)
                     && holds me MAGNIFYING_GLASS g) ;;
  go <- chance c double_0_35 ;;
  p_live <- (if go : bool then
               pop me MAGNIFYING_GLASS ;;
               ITEM_REGISTRY_use MAGNIFYING_GLASS me Player ;;
               (* refresh p_live with knowledge *)
               known <- get (fun g => current_known (knowledge (actor me g))) ;;
               match known with
               | Some LIVE => ret (1 # 1)%Q
               | Some BLANK => ret (0 # 1)%Q
               | None => ret p_live
               end
             else ret p_live) ;;
  (* If we think it's very likely live and have Hand Saw, sometimes use it *)
  c <- get (fun g => Qle_bool (6 # 10) p_live && holds me HAND_SAW g) ;;
  go <- chance c (1 # 2) ;;
  (if go : bool then pop me HAND_SAW ;; ITEM_REGISTRY_use HAND_SAW me Player else ret tt) ;;
  (* Occasionally use Beer to cycle if many shells remain *)
  c <- get (fun g => (2 <? Shotgun.remaining (shotgun g)) && holds me BEER g) ;;
  go <- chance c double_0_15 ;;
  (if go : bool then pop me BEER ;; ITEM_REGISTRY_use BEER me Player else ret tt) ;;
  (* Opportunistic Handcuffs if we suspect a live shell *)
  c <- get (fun g => Qle_bool (6 # 10) p_live && holds me HANDCUFFS g) ;;
  go <- chance c (25 # 100) ;;
  (if go : bool then pop me HANDCUFFS ;; ITEM_REGISTRY_use HANDCUFFS me Player else ret tt).

(** [Game.use_item_flow] *)
Definition use_item_flow (who : Who) : M World unit :=
  is_ai <- get (fun g => ai (actor who g)) ;;
  if is_ai : bool then ai_maybe_use_item who
  else
    n <- get (fun g => length (inventory (actor who g))) ;;
    use_item_loop (S n) who.

(** [Game.resolve_shot]; the result is [True] when the shooter keeps the
    turn. *)
Definition resolve_shot (shooter target : Who) : M World bool :=
  shell <- with_shotgun Shotgun.fire ;;
  (* clear current_known because chamber advanced *)
  set_known shooter None ;;
  set_known (other shooter) None ;;
  s <- name_of shooter ;;
  t <- name_of target ;;
  match shell with
  | LIVE =>
      dmg <- get (fun g => dmg_mult (actor shooter g)) ;;
      update (upd_actor target (Actor.hurt dmg)) ;;
      t_hp <- get (fun g => hp (actor target g)) ;;
      log (LogFireLive s t dmg t_hp) ;;
      update (upd_actor shooter (set_dmg_mult 1)) ;;  (* reset handsaw *)
      ret false  (* turn ends *)
  | BLANK =>
      log (LogFireBlank s t) ;;
      update (upd_actor shooter (set_dmg_mult 1)) ;;
      (* If you shot yourself with a blank, your turn continues; otherwise ends *)
      if decide (shooter = target) then ret true else ret false
  end.

(** [Game.ai_choose_target] *)
Definition ai_choose_target (me : Who) : M World Who :=
  known <- get (fun g => current_known (knowledge (actor me g))) ;;
  match known with
  | Some LIVE => ret Player
  | Some BLANK => ret me  (* shoot self to retain turn *)
  | None =>
      (* Else decide from counts *)
      p_live <- get (fun g => p_live_of (shotgun g)) ;;
      ret (if Qle_bool (1 # 2) p_live then Player else me)
  end.

(** The input loop of the aiming prompt: "s"/"self" is [True], "d"/"dealer"
    is [False], any other line asks again. *)
Fixpoint read_aim (inp : list Line) : Res bool * list Line :=
  match inp with
  | [] => (Raise EOFError, [])
  | LSelf :: rest => (Ok true, rest)
  | LDealer :: rest => (Ok false, rest)
  | _ :: rest => read_aim rest
  end.

(** The aiming choice of [Game.turn_loop]: the policy for the AI, the prompt
    for the human. *)
Definition aim (who : Who) : M World Who :=
  is_ai <- get (fun g => ai (actor who g)) ;;
  if is_ai : bool then ai_choose_target who
  else
    self <- with_stdin read_aim ;;
    ret (if self : bool then who else other who).

(** [Game.turn_loop] *)
Definition turn_loop : M World unit :=
  who <- get turn ;;
  let opp := other who in
  skip <- get (fun g => skip_next (actor who g)) ;;
  (* skip turn? *)
  if skip : bool then
    update (upd_actor who (set_skip_next false)) ;;
    n <- name_of who ;;
    log (LogSkip n) ;;
    update (set_turn opp)
  else
    rem <- get (fun g => Shotgun.remaining (shotgun g)) ;;
    (* If magazine empty -> new round *)
    if rem =? 0 then
      update (fun g => set_round_no (round_no g + 1) g) ;;
      log LogNewRound ;;
      c <- get cfg ;;
      sg <- with_rng (Shotgun.load (min_shells c) (max_shells c)) ;;
      update (set_shotgun sg) ;;
      deal_items ;;
      (* Player always starts the round *)
      update (set_turn Player)
    else
      (* Show state and allow item use *)
      use_item_flow who ;;
      (* Aiming choice *)
      target <- aim who ;;
      (* Resolve shot *)
      keep_turn <- resolve_shot who target ;;
      if keep_turn : bool then ret tt else update (set_turn opp).

(** [Actor(name, ...)] with the defaults of the dataclass *)
Definition Actor_new (n : string) (is_ai : bool) (mhp h : Z) : Actor :=
  {| name := n; max_hp := mhp; hp := h; inventory := []; skip_next := false;
     dmg_mult := 1; ai := is_ai; knowledge := Knowledge_new |}.

(** [Game.__init__]: the game that the constructor returns, or the
    exception that leaves no game. *)
Definition Game_init (c : Config) (inp : list Line) (r : Rng) : Res World :=
  match Shotgun.load (min_shells c) (max_shells c) r with
  | (Ok sg, r') =>
      let g := {| cfg := c;
                  player := Actor_new "You" false (player_max_hp c) (player_max_hp c);
                  dealer := Actor_new "Dealer" true (dealer_max_hp c) (dealer_max_hp c);
                  turn := Player;  (* player always starts *)
                  shotgun := sg;
                  round_no := 1;
                  transcript := [] |} in
      match deal_items {| game := g; stdin := inp; rng := r' |} with
      | (Ok _, w) => Ok w
      | (Raise e, _) => Raise e
      | (OutOfFuel, _) => OutOfFuel
      end
  | (Raise e, _) => Raise e
  | (OutOfFuel, _) => OutOfFuel
  end.

(** [Game.play]: at most [n] turns while both actors are alive. *)
Fixpoint play (n : nat) : M World unit :=
  match n with
  | O => ret tt
  | S n' =>
      alive <- get (fun g => Actor.is_alive (player g) && Actor.is_alive (dealer g)) ;;
      if alive : bool then turn_loop ;; play n' else ret tt
  end.

(** ** Specification predicates *)

(** The shell at the cursor, if there is one. *)
Definition cursor_shell (g : Game) : option Shell :=
  shells (shotgun g) !! index (shotgun g).

Definition knows (who : Who) (g : Game) : option Shell :=
  current_known (knowledge (actor who g)).

(** Whoever is certain of the current shell is right. *)
Definition knowledge_accurate (g : Game) : Prop :=
  forall who k, knows who g = Some k -> cursor_shell g = Some k.

Definition nobody_knows (g : Game) : Prop :=
  forall who, knows who g = None.

Definition only_actor_knows (who : Who) (g : Game) : Prop :=
  knows (other who) g = None
  /\ forall k, knows who g = Some k -> cursor_shell g = Some k.

Definition both_alive (g : Game) : bool :=
  Actor.is_alive (player g) && Actor.is_alive (dealer g).

(** Where the engine stands: between two turns, inside the item phase of
    an actor, or stopped by an exception. *)
Inductive Phase := TurnStart | ItemPhase (who : Who) | Crashed.

(** The games of a play, whatever is typed and drawn.  Between two turns
    the steps are the calls of [turn_loop]; inside the item phase they are
    the choice of an item by the human, the taking of an item by the AI,
    and the effect of an item used by the actor. *)
Inductive reachable : Phase -> Game -> Prop :=
| reach_init c inp r w :
    Game_init c inp r = Ok w ->
    reachable TurnStart (game w)
| reach_turn w w' :
    reachable TurnStart (game w) -> both_alive (game w) = true ->
    turn_loop w = (Ok tt, w') ->
    reachable TurnStart (game w')
| reach_crash w e w' :
    reachable TurnStart (game w) -> both_alive (game w) = true ->
    turn_loop w = (Raise e, w') ->
    reachable Crashed (game w')
| reach_item_phase g :
    reachable TurnStart g -> both_alive g = true ->
    skip_next (actor (turn g) g) = false ->
    Shotgun.remaining (shotgun g) <> 0 ->
    reachable (ItemPhase (turn g)) g
| reach_choose who w iid w' :
    reachable (ItemPhase who) (game w) ->
    prompt_choose_item who w = (Ok (Some iid), w') ->
    reachable (ItemPhase who) (game w')
| reach_pop who w iid r w' :
    reachable (ItemPhase who) (game w) ->
    pop who iid w = (r, w') ->
    reachable (ItemPhase who) (game w')
| reach_use who w iid target r w' :
    reachable (ItemPhase who) (game w) ->
    ITEM_REGISTRY_use iid who target w = (r, w') ->
    reachable (ItemPhase who) (game w').

(** A configuration under which a round can always be dealt. *)
Definition valid_config (c : Config) : Prop :=
  2 <= min_shells c <= max_shells c
  /\ 0 <= fst (items_per_round c) <= snd (items_per_round c)
  /\ snd (items_per_round c) <= 8.

(** An inventory as a round deals it: a number of items in the configured
    range, drawn from the catalog without replacement. *)
Definition dealt (c : Config) (inv : list ItemId) : Prop :=
  fst (items_per_round c) <= Z.of_nat (length inv) <= snd (items_per_round c)
  /\ NoDup inv
  /\ inv ⊆+ all_items.

(** A random source that yields the draws of [l], then zeros. *)
Definition rng_of (l : list nat) : Rng := fun i => nth i l 0%nat.

(** ** Proof support *)

(** [m] keeps [I], however it ends. *)
Definition preserves {A} (I : Game -> Prop) (m : M World A) : Prop :=
  forall w, I (game w) -> I (game (snd (m w))).

(** The actor holds at most [n] items. *)
Definition inventory_within (who : Who) (n : nat) (g : Game) : Prop :=
  (length (inventory (actor who g)) <= n)%nat.

(** The bound on the iterations of [m] is never reached. *)
Definition never_out_of_fuel {A} (m : M World A) : Prop :=
  forall w, fst (m w) <> OutOfFuel.

(** The state in which the stolen item is used: [iid] has been popped
    from the target and the steal by [u] has been logged. *)
Definition stolen (iid : ItemId) (u : string) (target : Who) (g : Game) : Game :=
  set_transcript
    (transcript g ++ [LogAdrenalineSteal u iid (name (actor target g))])
    (upd_actor target (fun a => snd (Actor.pop_item iid a)) g).

(** A shell is at the cursor. *)
Definition loaded (g : Game) : Prop := 1 <= Shotgun.remaining (shotgun g).

(** From a loaded gun, [m] returns and leaves the gun loaded. *)
Definition succeeds {A} (m : M World A) : Prop :=
  forall w, loaded (game w) ->
    (exists a, fst (m w) = Ok a) /\ loaded (game (snd (m w))).

(** The [ai] flag of the actor is [b]. *)
Definition ai_is (who : Who) (b : bool) (g : Game) : Prop := ai (actor who g) = b.

(** *** Predicates of the further properties *)

(** [P] holds of both actors, [P who] of the actor [who]. *)
Definition each_actor (P : Who -> Actor -> Prop) (g : Game) : Prop :=
  forall who, P who (actor who g).

(** The game before [deal_items] in [Game.__init__]. *)
Definition Game_undealt (c : Config) (sg : Shotgun) : Game :=
  {| cfg := c;
     player := Actor_new "You" false (player_max_hp c) (player_max_hp c);
     dealer := Actor_new "Dealer" true (dealer_max_hp c) (dealer_max_hp c);
     turn := Player;
     shotgun := sg;
     round_no := 1;
     transcript := [] |}.

(** What an actor has in [known_positions] about a shell ahead of the
    cursor is true. *)
Definition known_ahead (g : Game) : Prop :=
  forall who k s,
    known_positions (knowledge (actor who g)) !! k = Some s ->
    (index (shotgun g) < k)%nat ->
    shells (shotgun g) !! k = Some s.

(** The items that [ai_maybe_use_item] has no rule for. *)
Definition ai_unused (iid : ItemId) : Prop :=
  iid ∈ [INVERTER; BURNER_PHONE; ADRENALINE].

(** The inventories as the AI's item phase must leave them: the
    opponent's as it is, and of its own the items it has no rule for. *)
Definition ai_inventories (me : Who) (theirs mine : list ItemId) (g : Game) : Prop :=
  inventory (actor (other me) g) = theirs
  /\ filter ai_unused (inventory (actor me g)) = mine.

(** ** Example games *)

(** The player has used the Hand Saw; a live shell is at the cursor. *)
Definition w_sawed : World :=
  {| game := {| cfg := Config_default;
                player := set_dmg_mult 2 (Actor_new "You" false 4 4);
                dealer := Actor_new "Dealer" true 4 4;
                turn := Player;
                shotgun := {| shells := [LIVE; BLANK]; index := 0 |};
                round_no := 1; transcript := [] |};
     stdin := []; rng := rng_of [] |}.

(** A blank is at the cursor; the player declines items and aims at themself. *)
Definition w_blank : World :=
  {| game := {| cfg := Config_default;
                player := Actor_new "You" false 4 4;
                dealer := Actor_new "Dealer" true 4 4;
                turn := Player;
                shotgun := {| shells := [BLANK; LIVE]; index := 0 |};
                round_no := 1; transcript := [] |};
     stdin := [LEmpty; LSelf]; rng := rng_of [] |}.

(** The draws and the lines of a play in which the player racks the last
    shell away. *)
Definition beer_stdin : list Line := [LEmpty; LSelf; LNum 1; LEmpty; LSelf].
Definition beer_rng : Rng := rng_of [0; 0; 1; 0; 0; 1; 0]%nat.

(** Two humans at the table; the target holds two cigarettes. *)
Definition steal_world : World :=
  {| game := {| cfg := Config_default;
                player := Actor_new "You" false 4 3;
                dealer := set_inventory [CIGARETTE; CIGARETTE] (Actor_new "Guest" false 4 4);
                turn := Player;
                shotgun := {| shells := [LIVE; BLANK]; index := 0 |};
                round_no := 1; transcript := [] |};
     stdin := [LNum 1]; rng := rng_of [] |}.

(** The gun is empty and it is the dealer's turn. *)
Definition w_reload : World :=
  {| game := {| cfg := Config_default;
                player := Actor_new "You" false 4 3;
                dealer := Actor_new "Dealer" true 4 4;
                turn := Dealer;
                shotgun := {| shells := [BLANK; LIVE]; index := 2 |};
                round_no := 1; transcript := [] |};
     stdin := []; rng := rng_of [] |}.

(** The player has looked at the live shell at the cursor. *)
Definition w_known : World :=
  {| game := {| cfg := Config_default;
                player := set_knowledge (set_current_known (Some LIVE) Knowledge_new)
                            (Actor_new "You" false 4 4);
                dealer := Actor_new "Dealer" true 4 4;
                turn := Player;
                shotgun := {| shells := [BLANK; LIVE; BLANK]; index := 1 |};
                round_no := 1; transcript := [] |};
     stdin := []; rng := rng_of [] |}.

(** A game as the constructor makes it: two shells, [BLANK] then [LIVE];
    the player holds a Burner Phone and a Magnifying Glass and will choose
    the first. *)
Definition phone_rng : Rng := rng_of [0; 0; 1; 0; 0; 5; 0]%nat.
Definition start_world : World :=
  match Game_init Config_default [LNum 1] phone_rng with
  | Ok w => w
  | _ => w_blank
  end.

(** The same game after the player has used the Burner Phone. *)
Definition phone_world : World :=
  snd ((prompt_choose_item Player ;; ITEM_REGISTRY_use BURNER_PHONE Player Dealer)
         start_world).

(** A handcuffed player. *)
Definition w_cuffed : World :=
  {| game := {| cfg := Config_default;
                player := set_skip_next true (Actor_new "You" false 4 4);
                dealer := Actor_new "Dealer" true 4 4;
                turn := Player;
                shotgun := {| shells := [BLANK; LIVE]; index := 2 |};
                round_no := 1; transcript := [] |};
     stdin := []; rng := rng_of [] |}.

(** The dealer steals from a player who holds two cigarettes. *)
Definition w_dealer_steals : World :=
  {| game := {| cfg := Config_default;
                player := set_inventory [CIGARETTE; CIGARETTE] (Actor_new "You" false 4 4);
                dealer := Actor_new "Dealer" true 4 3;
                turn := Dealer;
                shotgun := {| shells := [LIVE; BLANK; LIVE]; index := 0 |};
                round_no := 1; transcript := [] |};
     stdin := []; rng := rng_of [] |}.

(** * Properties *)

(** ** The shell sequence *)

Lemma remaining_pos_iff (sg : Shotgun) :
  1 <= Shotgun.remaining sg <-> (index sg < length (shells sg))%nat.
Proof. unfold Shotgun.remaining. lia. Qed.

Lemma cursor_shell_remaining (g : Game) s :
  cursor_shell g = Some s -> 1 <= Shotgun.remaining (shotgun g).
Proof.
  intros H. apply remaining_pos_iff. exact (lookup_lt_Some _ _ _ H).
Qed.

Lemma remaining_cursor_shell (g : Game) :
  1 <= Shotgun.remaining (shotgun g) -> exists s, cursor_shell g = Some s.
Proof.
  intros H. apply remaining_pos_iff in H.
  destruct (lookup_lt_is_Some_2 _ _ H) as [s Hs]. by exists s.
Qed.

Lemma fire_empty (sg : Shotgun) :
  (length (shells sg) <= index sg)%nat -> Shotgun.fire sg = (Raise RuntimeError, sg).
Proof.
  intros H. unfold Shotgun.fire.
  destruct (Nat.leb_spec (length (shells sg)) (index sg)); [reflexivity|lia].
Qed.

Lemma fire_loaded (sg : Shotgun) s :
  shells sg !! index sg = Some s ->
  Shotgun.fire sg = (Ok s, set_index (S (index sg)) sg).
Proof.
  intros H. unfold Shotgun.fire. pose proof (lookup_lt_Some _ _ _ H).
  destruct (Nat.leb_spec (length (shells sg)) (index sg)); [lia|]. by rewrite H.
Qed.

Lemma invert_loaded (sg : Shotgun) s :
  shells sg !! index sg = Some s ->
  Shotgun.invert_current sg
  = (Ok tt, set_shells (<[index sg := flip_shell s]> (shells sg)) sg).
Proof.
  intros H. unfold Shotgun.invert_current. pose proof (lookup_lt_Some _ _ _ H).
  destruct (Nat.leb_spec (length (shells sg)) (index sg)); [lia|]. by rewrite H.
Qed.

Lemma invert_empty (sg : Shotgun) :
  shells sg !! index sg = None -> Shotgun.invert_current sg = (Ok tt, sg).
Proof.
  intros H. unfold Shotgun.invert_current. apply lookup_ge_None in H.
  destruct (Nat.leb_spec (length (shells sg)) (index sg)); [reflexivity|lia].
Qed.

(** C9.  [fire] and [eject_current] raise exactly when the cursor has
    reached the length of the sequence, and then leave the shells and the
    cursor as they were; otherwise they return the shell at the cursor and
    move the cursor one further, so that a cursor within the sequence stays
    within it.  [eject_current] is [fire]. *)
Theorem fire_cursor (sg : Shotgun) :
  let N := length (shells sg) in
  ((exists e, fst (Shotgun.fire sg) = Raise e) <-> (N <= index sg)%nat)
  /\ ((N <= index sg)%nat -> Shotgun.fire sg = (Raise RuntimeError, sg))
  /\ ((index sg < N)%nat -> exists s,
        shells sg !! index sg = Some s
        /\ Shotgun.fire sg = (Ok s, {| shells := shells sg; index := S (index sg) |}))
  /\ ((index sg <= N)%nat -> (index (snd (Shotgun.fire sg)) <= N)%nat)
  /\ Shotgun.eject_current sg = Shotgun.fire sg.
Proof.
  intros N. subst N. unfold Shotgun.eject_current.
  destruct (Nat.le_gt_cases (length (shells sg)) (index sg)) as [Hge|Hlt].
  - rewrite (fire_empty sg Hge). cbn [fst snd].
    split; [split; eauto|]. split; [done|].
    split; [intros; lia|]. split; [intros; lia|done].
  - destruct (lookup_lt_is_Some_2 _ _ Hlt) as [s Hs].
    rewrite (fire_loaded sg s Hs). cbn [fst snd].
    split; [split; [intros [e He]; discriminate|lia]|].
    split; [intros; lia|]. split; [eauto|]. split; [cbn; lia|done].
Qed.

(** ** The random source *)

Lemma randbelow_lt n r :
  (0 < n)%nat -> exists j, randbelow n r = (Ok j, rng_tail r) /\ (j < n)%nat.
Proof.
  intros Hn. eexists. split; [reflexivity|]. apply Nat.mod_upper_bound. lia.
Qed.

Lemma randint_range a b r :
  a <= b -> exists v, randint a b r = (Ok v, rng_tail r) /\ a <= v <= b.
Proof.
  intros Hab. unfold randint.
  destruct (Z.ltb_spec b a) as [?|_]; [lia|].
  destruct (randbelow_lt (Z.to_nat (b - a + 1)) r) as (j & Hj & Hlt); [lia|].
  exists (a + Z.of_nat j). unfold bind. rewrite Hj. split; [reflexivity|lia].
Qed.

Lemma draw_without_replacement_spec {A} (k : nat) : forall (pool : list A) r,
  (k <= length pool)%nat ->
  exists l r' rest, draw_without_replacement k pool r = (Ok l, r')
    /\ length l = k /\ l ++ rest ≡ₚ pool.
Proof.
  induction k as [|k IH]; intros pool r Hk.
  - exists [], r, pool. split; [reflexivity|]. split; reflexivity.
  - destruct (randbelow_lt (length pool) r) as (j & Hj & Hlt); [lia|].
    destruct (lookup_lt_is_Some_2 pool j Hlt) as [x Hx].
    destruct (IH (delete j pool) (rng_tail r)) as (l & r' & rest & Hd & Hlen & Hperm).
    { rewrite length_delete; [lia|eauto]. }
    exists (x :: l), r', rest. cbn [draw_without_replacement]. unfold bind at 1.
    rewrite Hj, Hx. unfold bind at 1. rewrite Hd. split; [reflexivity|].
    split; [simpl; lia|].
    simpl. rewrite Hperm. symmetry. by apply delete_Permutation.
Qed.

Lemma sample_spec {A} (pool : list A) (k : Z) r :
  0 <= k <= Z.of_nat (length pool) ->
  exists l r', sample pool k r = (Ok l, r')
    /\ Z.of_nat (length l) = k /\ l ⊆+ pool.
Proof.
  intros Hk. unfold sample.
  destruct (Z.ltb_spec k 0); [lia|]. destruct (Z.ltb_spec (Z.of_nat (length pool)) k); [lia|].
  cbn [orb].
  destruct (draw_without_replacement_spec (Z.to_nat k) pool r)
    as (l & r' & rest & Hd & Hlen & Hperm); [lia|].
  exists l, r'. split; [done|]. split; [lia|].
  rewrite <- Hperm. by apply submseteq_inserts_r.
Qed.

Lemma shuffle_spec {A} (l : list A) r :
  exists l' r', shuffle l r = (Ok l', r') /\ l' ≡ₚ l.
Proof.
  destruct (draw_without_replacement_spec (length l) l r)
    as (l' & r' & rest & Hd & Hlen & Hperm); [lia|].
  exists l', r'. split; [done|].
  assert (rest = []) as ->; [|by rewrite app_nil_r in Hperm].
  apply Permutation_length in Hperm. rewrite length_app in Hperm.
  destruct rest; [done|simpl in Hperm; lia].
Qed.

Lemma choice_spec {A} (l : list A) r :
  l <> [] -> exists x, choice l r = (Ok x, rng_tail r) /\ x ∈ l.
Proof.
  intros Hl. unfold choice. destruct l as [|a l]; [done|].
  destruct (randbelow_lt (length (a :: l)) r) as (j & Hj & Hlt); [simpl; lia|].
  destruct (lookup_lt_is_Some_2 _ _ Hlt) as [x Hx].
  exists x. unfold bind. rewrite Hj, Hx. split; [done|].
  apply list_elem_of_lookup. eauto.
Qed.

Lemma count_perm s l1 l2 : l1 ≡ₚ l2 -> count s l1 = count s l2.
Proof. intros H. unfold count. by rewrite H. Qed.

Lemma count_replicate_eq s n : count s (replicate n s) = n.
Proof.
  unfold count. induction n as [|n IH]; [reflexivity|].
  simpl. rewrite filter_cons_True by reflexivity. simpl. by rewrite IH.
Qed.

Lemma count_replicate_ne s s' n : s' <> s -> count s (replicate n s') = 0%nat.
Proof.
  intros Hne. unfold count. induction n as [|n IH]; [reflexivity|].
  simpl. rewrite filter_cons_False by done. exact IH.
Qed.

Lemma count_app s l1 l2 : count s (l1 ++ l2) = (count s l1 + count s l2)%nat.
Proof. unfold count. by rewrite filter_app, length_app. Qed.

(** What [load] builds: lives and blanks in the drawn numbers, in some
    order, behind a cursor at 0. *)
Lemma load_shape (min_shells max_shells : Z) (r : Rng) :
  2 <= min_shells <= max_shells ->
  exists sg r' n live_count,
    Shotgun.load min_shells max_shells r = (Ok sg, r')
    /\ min_shells <= n <= max_shells
    /\ 1 <= live_count <= n - 1
    /\ shells sg ≡ₚ replicate (Z.to_nat live_count) LIVE
                    ++ replicate (Z.to_nat (n - live_count)) BLANK
    /\ index sg = 0%nat.
Proof.
  intros [Hmin Hmax]. unfold Shotgun.load.
  destruct (randint_range min_shells max_shells r) as (n & Hn & Hnr); [lia|].
  destruct (randint_range 1 (n - 1) (rng_tail r)) as (lc & Hlc & Hlcr); [lia|].
  set (l := replicate (Z.to_nat lc) LIVE ++ replicate (Z.to_nat (n - lc)) BLANK).
  destruct (shuffle_spec l (rng_tail (rng_tail r))) as (l' & r' & Hd & Hperm).
  exists {| shells := l'; index := 0 |}, r', n, lc.
  unfold bind at 1. rewrite Hn. unfold bind at 1. rewrite Hlc.
  unfold bind at 1. fold l. rewrite Hd.
  split; [reflexivity|]. split; [lia|]. split; [lia|]. split; [exact Hperm|reflexivity].
Qed.

(** C4.  With [2 <= min_shells <= max_shells], whatever the random source
    draws, [load] returns a sequence whose length lies in
    [[min_shells, max_shells]], which holds at least one live and at least
    one blank shell ([1 <= liveCount <= N - 1]), whose cursor is 0 and whose
    [counts_remaining] is [(liveCount, N - liveCount)]. *)
Theorem load_invariant (min_shells max_shells : Z) (r : Rng) :
  2 <= min_shells <= max_shells ->
  exists sg r',
    Shotgun.load min_shells max_shells r = (Ok sg, r')
    /\ let N := length (shells sg) in
       let liveCount := count LIVE (shells sg) in
       min_shells <= Z.of_nat N <= max_shells
       /\ (1 <= liveCount <= N - 1)%nat
       /\ (1 <= count BLANK (shells sg))%nat
       /\ index sg = 0%nat
       /\ Shotgun.counts_remaining sg = (liveCount, (N - liveCount)%nat).
Proof.
  intros Hrange.
  destruct (load_shape min_shells max_shells r Hrange)
    as (sg & r' & n & lc & Hload & Hn & Hlc & Hperm & Hidx).
  exists sg, r'. split; [exact Hload|]. cbn zeta.
  assert (HL : count LIVE (shells sg) = Z.to_nat lc).
  { rewrite (count_perm _ _ _ Hperm).
    by rewrite count_app, count_replicate_eq, count_replicate_ne. }
  assert (HB : count BLANK (shells sg) = Z.to_nat (n - lc)).
  { rewrite (count_perm _ _ _ Hperm).
    by rewrite count_app, count_replicate_eq, count_replicate_ne. }
  assert (HN : length (shells sg) = Z.to_nat n).
  { rewrite (Permutation_length Hperm), length_app, !length_replicate. lia. }
  rewrite HN, HL.
  split; [lia|]. split; [lia|]. split; [lia|]. split; [exact Hidx|].
  unfold Shotgun.counts_remaining. rewrite Hidx, drop_0, HL, HB. f_equal. lia.
Qed.

Lemma load_invariant_witness :
  exists sg r',
    Shotgun.load 2 8 (rng_of [3; 1; 0; 2]%nat) = (Ok sg, r')
    /\ let N := length (shells sg) in
       let liveCount := count LIVE (shells sg) in
       2 <= Z.of_nat N <= 8
       /\ (1 <= liveCount <= N - 1)%nat
       /\ (1 <= count BLANK (shells sg))%nat
       /\ index sg = 0%nat
       /\ Shotgun.counts_remaining sg = (liveCount, (N - liveCount)%nat).
Proof. apply (load_invariant 2 8); lia. Defined.

(** ** Running the engine step by step *)

Lemma run_get {A B} (f : Game -> A) (k : A -> M World B) w :
  (x <- get f ;; k x) w = k (f (game w)) w.
Proof. reflexivity. Qed.

Lemma run_update {B} (f : Game -> Game) (k : M World B) w :
  (update f ;; k) w = k (set_game (f (game w)) w).
Proof. reflexivity. Qed.

Lemma run_ret {A B} (a : A) (k : A -> M World B) w :
  (x <- ret a ;; k x) w = k a w.
Proof. reflexivity. Qed.

Lemma run_with_shotgun {A B} (m : M Shotgun A) (k : A -> M World B) w a sg :
  m (shotgun (game w)) = (Ok a, sg) ->
  (x <- with_shotgun m ;; k x) w = k a (set_game (set_shotgun sg (game w)) w).
Proof. intros H. unfold bind, with_shotgun. by rewrite H. Qed.

Lemma run_with_rng {A B} (m : M Rng A) (k : A -> M World B) w a r :
  m (rng w) = (Ok a, r) ->
  (x <- with_rng m ;; k x) w = k a (set_rng r w).
Proof. intros H. unfold bind, with_rng. by rewrite H. Qed.

Lemma run_ok {A B} (m : M World A) (k : A -> M World B) w a w' :
  m w = (Ok a, w') -> (x <- m ;; k x) w = k a w'.
Proof. intros H. unfold bind. by rewrite H. Qed.

Lemma actor_upd_same who f g : actor who (upd_actor who f g) = f (actor who g).
Proof. by destruct who. Qed.

(** C8.  A shot fired with a shell at the cursor leaves the shooter's
    [dmg_mult] at 1, whether the shell is live or blank; a live shell takes
    exactly the shooter's former [dmg_mult] off the target's HP, with no
    floor, and a blank leaves the HP alone. *)
Theorem resolve_shot_damage (w : World) (shooter target : Who) (shell : Shell) :
  let g := game w in
  let m := dmg_mult (actor shooter g) in
  cursor_shell g = Some shell ->
  exists keep w',
    resolve_shot shooter target w = (Ok keep, w')
    /\ dmg_mult (actor shooter (game w')) = 1
    /\ hp (actor target (game w'))
       = match shell with LIVE => hp (actor target g) - m | BLANK => hp (actor target g) end.
Proof.
  intros g m Hs. subst g m. unfold resolve_shot.
  rewrite (run_with_shotgun _ _ _ _ _ (fire_loaded _ _ Hs)).
  destruct shell, shooter, target; do 2 eexists; (split; [reflexivity|]); split; reflexivity.
Qed.

Lemma resolve_shot_damage_witness :
  exists keep w',
    resolve_shot Player Dealer w_sawed = (Ok keep, w')
    /\ dmg_mult (actor Player (game w')) = 1
    /\ hp (actor Dealer (game w')) = 4 - 2.
Proof. apply (resolve_shot_damage w_sawed Player Dealer LIVE). reflexivity. Defined.

(** C6.  With a shell left, the Inverter replaces the shell at the cursor
    by its negation, [BLANK] for [LIVE] and [LIVE] for [BLANK], changes no
    other shell and does not move the cursor; a [current_known] that the
    user had is negated in the same way, and if it was the shell at the
    cursor before, it still is afterwards. *)
Theorem Inverter_consistency (w : World) (user target : Who) :
  let g := game w in
  let negation := fun s : Shell => match s with LIVE => BLANK | BLANK => LIVE end in
  1 <= Shotgun.remaining (shotgun g) ->
  exists s w',
    cursor_shell g = Some s
    /\ Inverter_use user target w = (Ok tt, w')
    /\ shells (shotgun (game w'))
       = <[index (shotgun g) := negation s]> (shells (shotgun g))
    /\ index (shotgun (game w')) = index (shotgun g)
    /\ cursor_shell (game w') = Some (negation s)
    /\ cursor_shell (game w') <> cursor_shell g
    /\ forall k, knows user g = Some k ->
         knows user (game w') = Some (negation k)
         /\ knows user (game w') <> knows user g
         /\ (cursor_shell g = Some k -> cursor_shell (game w') = knows user (game w')).
Proof.
  intros g negation Hrem. subst g.
  destruct (remaining_cursor_shell _ Hrem) as [s Hs].
  pose proof (lookup_lt_Some _ _ _ Hs) as Hlt.
  assert (Hneg : forall x, flip_shell x = negation x /\ Some (negation x) <> Some x)
    by (by intros []).
  assert (Hrun : exists w',
             Inverter_use user target w = (Ok tt, w')
             /\ shells (shotgun (game w'))
                = <[index (shotgun (game w)) := flip_shell s]> (shells (shotgun (game w)))
             /\ index (shotgun (game w')) = index (shotgun (game w))
             /\ forall k, knows user (game w) = Some k ->
                  knows user (game w') = Some (flip_shell k)).
  { unfold Inverter_use.
    rewrite (run_with_shotgun _ _ _ _ _ (invert_loaded _ _ Hs)), run_get.
    assert (Hsame : forall sg, current_known (knowledge (actor user (set_shotgun sg (game w))))
                                = knows user (game w)) by (by destruct user).
    cbn [game set_game]. rewrite Hsame.
    destruct (knows user (game w)) as [k|] eqn:Hk.
    - eexists. split; [reflexivity|]. split; [by destruct user|].
      split; [by destruct user|]. intros k' Hk'. simplify_eq. by destruct user.
    - eexists. split; [reflexivity|]. split; [by destruct user|].
      split; [by destruct user|]. intros; simplify_eq. }
  destruct Hrun as (w' & Hrun & Hsh & Hidx & Hknow).
  assert (Hc : cursor_shell (game w') = Some (negation s)).
  { unfold cursor_shell. rewrite Hsh, Hidx, <- (proj1 (Hneg s)).
    by apply list_lookup_insert_eq. }
  exists s, w'. split; [exact Hs|]. split; [exact Hrun|].
  split; [by rewrite Hsh, (proj1 (Hneg s))|]. split; [exact Hidx|].
  split; [exact Hc|].
  split; [unfold cursor_shell in *; rewrite Hc, Hs; apply Hneg|].
  intros k Hk. pose proof (Hknow k Hk) as Hk'. rewrite (proj1 (Hneg k)) in Hk'.
  split; [exact Hk'|]. split; [rewrite Hk', Hk; apply Hneg|].
  intros Hck. rewrite Hs in Hck. simplify_eq. by rewrite Hc, Hk'.
Qed.

Lemma Inverter_consistency_witness :
  exists s w',
    cursor_shell (game w_known) = Some s
    /\ Inverter_use Player Dealer w_known = (Ok tt, w')
    /\ shells (shotgun (game w'))
       = <[1%nat := match s with LIVE => BLANK | BLANK => LIVE end]> [BLANK; LIVE; BLANK]
    /\ index (shotgun (game w')) = 1%nat
    /\ cursor_shell (game w') = Some (match s with LIVE => BLANK | BLANK => LIVE end)
    /\ cursor_shell (game w') <> cursor_shell (game w_known)
    /\ forall k, knows Player (game w_known) = Some k ->
         knows Player (game w') = Some (match k with LIVE => BLANK | BLANK => LIVE end)
         /\ knows Player (game w') <> knows Player (game w_known)
         /\ (cursor_shell (game w_known) = Some k ->
             cursor_shell (game w') = knows Player (game w')).
Proof. apply (Inverter_consistency w_known Player Dealer). vm_compute. discriminate. Defined.

(** C7.  With at most one shell left the Burner Phone only logs its
    message: shotgun, actors and knowledge are untouched.  Otherwise it
    writes one entry of the user's [known_positions], at an absolute index
    [k] strictly between the cursor and the length of the sequence, with the
    shell that lies at [k], logs the message, consumes one draw, and changes
    nothing else. *)
Theorem BurnerPhone_effect (w : World) (user target : Who) :
  let g := game w in
  let sg := shotgun g in
  (Shotgun.remaining sg <= 1 ->
     BurnerPhone_use user target w
     = (Ok tt,
        set_game (set_transcript
                    (transcript g ++ [LogBurnerPhoneUnfortunate (name (actor user g))]) g) w))
  /\ (1 < Shotgun.remaining sg ->
      exists k shell,
        (index sg < k < length (shells sg))%nat
        /\ shells sg !! k = Some shell
        /\ BurnerPhone_use user target w
           = (Ok tt,
              {| game :=
                   set_transcript
                     (transcript g ++ [LogBurnerPhone (k - index sg + 1) shell])
                     (upd_actor user
                        (fun a => set_knowledge
                                    (set_known_positions
                                       (<[k := shell]> (known_positions (knowledge a)))
                                       (knowledge a)) a) g);
                 stdin := stdin w;
                 rng := rng_tail (rng w) |})).
Proof.
  intros g sg. subst g sg. unfold BurnerPhone_use, name_of. rewrite !run_get. split.
  - intros Hrem. destruct (Z.leb_spec (Shotgun.remaining (shotgun (game w))) 1); [|lia].
    reflexivity.
  - intros Hrem. destruct (Z.leb_spec (Shotgun.remaining (shotgun (game w))) 1); [lia|].
    destruct (randint_range 1 (Shotgun.remaining (shotgun (game w)) - 1) (rng w))
      as (v & Hv & Hvr); [lia|].
    rewrite (run_with_rng _ _ _ _ _ Hv), run_get. cbn [game set_rng].
    unfold Shotgun.remaining in *.
    set (k := (index (shotgun (game w)) + Z.to_nat v)%nat).
    assert (Hk : (k < length (shells (shotgun (game w))))%nat) by (subst k; lia).
    destruct (lookup_lt_is_Some_2 _ _ Hk) as [shell Hshell].
    exists k, shell. split; [subst k; lia|]. split; [exact Hshell|].
    rewrite Hshell.
    replace (k - index (shotgun (game w)) + 1)%nat with (Z.to_nat v + 1)%nat by (subst k; lia).
    by destruct user.
Qed.

Lemma BurnerPhone_effect_witness :
  exists k shell,
    (0 < k < 2)%nat
    /\ shells (shotgun (game w_sawed)) !! k = Some shell
    /\ BurnerPhone_use Player Dealer w_sawed
       = (Ok tt,
          {| game :=
               set_transcript
                 (transcript (game w_sawed) ++ [LogBurnerPhone (k - 0 + 1) shell])
                 (upd_actor Player
                    (fun a => set_knowledge
                                (set_known_positions
                                   (<[k := shell]> (known_positions (knowledge a)))
                                   (knowledge a)) a) (game w_sawed));
             stdin := stdin w_sawed;
             rng := rng_tail (rng w_sawed) |}).
Proof. apply (proj2 (BurnerPhone_effect w_sawed Player Dealer)). reflexivity. Defined.

(** ** What the item phase, the aim and the shot leave alone *)

Section Preservation.
Context (I : Game -> Prop).

Lemma preserves_ret {A} (a : A) : preserves I (ret a).
Proof. intros w H. exact H. Qed.

Lemma preserves_raise {A} e : preserves I (@raise World A e).
Proof. intros w H. exact H. Qed.

Lemma preserves_get {A} (f : Game -> A) : preserves I (get f).
Proof. intros w H. exact H. Qed.

Lemma preserves_bind {A B} (m : M World A) (f : A -> M World B) :
  preserves I m -> (forall a, preserves I (f a)) -> preserves I (bind m f).
Proof.
  intros Hm Hf w H. unfold bind. specialize (Hm w H).
  destruct (m w) as [[a| |] w']; cbn in *; [by apply Hf|done|done].
Qed.

Lemma preserves_with_rng {A} (m : M Rng A) : preserves I (with_rng m).
Proof. intros w H. unfold with_rng. by destruct (m (rng w)). Qed.

Lemma preserves_with_stdin {A} (m : M (list Line) A) : preserves I (with_stdin m).
Proof. intros w H. unfold with_stdin. by destruct (m (stdin w)). Qed.

Lemma preserves_update (f : Game -> Game) :
  (forall g, I g -> I (f g)) -> preserves I (update f).
Proof. intros Hf w H. by apply Hf. Qed.

Lemma preserves_out_of_fuel {A} : preserves I (fun w => (@OutOfFuel A, w)).
Proof. intros w H. exact H. Qed.

End Preservation.

(** The structural steps of a preservation proof; [leaf] closes the calls
    that the invariant at hand is concerned with. *)
Ltac frame_with leaf :=
  repeat first
    [ leaf
    | lazymatch goal with
      | |- preserves _ (bind _ _) => apply preserves_bind; [|intros ?]
      | |- preserves _ (ret _) => apply preserves_ret
      | |- preserves _ (raise _) => apply preserves_raise
      | |- preserves _ (get _) => apply preserves_get
      | |- preserves _ (name_of _) => apply preserves_get
      | |- preserves _ (with_rng _) => apply preserves_with_rng
      | |- preserves _ (with_stdin _) => apply preserves_with_stdin
      | |- preserves _ (fun w => (OutOfFuel, w)) => apply preserves_out_of_fuel
      | |- preserves _ (if ?c then _ else _) => destruct c
      | |- preserves _ (match ?x with _ => _ end) => destruct x
      end ].

Section Frame.
Context (I : Game -> Prop).
Hypothesis I_actor : forall g who a, I g -> I (set_actor who a g).
Hypothesis I_shotgun : forall g sg, I g -> I (set_shotgun sg g).
Hypothesis I_transcript : forall g t, I g -> I (set_transcript t g).

Lemma frame_upd_actor who f : preserves I (update (upd_actor who f)).
Proof. apply preserves_update. intros g H. by apply I_actor. Qed.

Lemma frame_with_shotgun {A} (m : M Shotgun A) : preserves I (with_shotgun m).
Proof.
  intros w H. unfold with_shotgun. destruct (m (shotgun (game w))).
  by apply I_shotgun.
Qed.

Lemma frame_log msg : preserves I (log msg).
Proof. apply preserves_update. intros g H. by apply I_transcript. Qed.

Ltac frame_leaf :=
  idtac;
  lazymatch goal with
  | |- preserves _ (with_shotgun _) => apply frame_with_shotgun
  | |- preserves _ (log _) => apply frame_log
  | |- preserves _ (update (upd_actor _ _)) => apply frame_upd_actor
  | |- preserves _ (pop _ _) => apply frame_upd_actor
  | |- preserves _ (set_known _ _) => apply frame_upd_actor
  end.

Lemma frame_prompt_choose_item who : preserves I (prompt_choose_item who).
Proof. unfold prompt_choose_item. frame_with frame_leaf. Qed.

Lemma frame_item_use fuel : forall iid user target,
  preserves I (item_use fuel iid user target).
Proof.
  induction fuel as [|fuel IH]; intros iid user target; destruct iid; cbn [item_use];
    unfold MagnifyingGlass_use, Beer_use, Handcuffs_use, HandSaw_use, Inverter_use,
      BurnerPhone_use, Cigarette_use, Adrenaline_use;
    frame_with ltac:(first [ frame_leaf
                           | lazymatch goal with
                             | |- preserves _ (prompt_choose_item _) =>
                                 apply frame_prompt_choose_item
                             | |- preserves _ (item_use _ _ _ _) => apply IH
                             end ]).
Qed.

Lemma frame_ITEM_REGISTRY_use iid user target :
  preserves I (ITEM_REGISTRY_use iid user target).
Proof. intros w. apply frame_item_use. Qed.

Lemma frame_use_item_loop fuel who : preserves I (use_item_loop fuel who).
Proof.
  induction fuel as [|fuel IH]; cbn [use_item_loop]; [apply preserves_out_of_fuel|].
  frame_with ltac:(idtac; lazymatch goal with
                   | |- preserves _ (prompt_choose_item _) => apply frame_prompt_choose_item
                   | |- preserves _ (ITEM_REGISTRY_use _ _ _) => apply frame_ITEM_REGISTRY_use
                   | |- preserves _ (use_item_loop _ _) => apply IH
                   end).
Qed.

Lemma frame_ai_maybe_use_item who : preserves I (ai_maybe_use_item who).
Proof.
  unfold ai_maybe_use_item, chance.
  frame_with ltac:(first [ frame_leaf
                         | lazymatch goal with
                           | |- preserves _ (ITEM_REGISTRY_use _ _ _) =>
                               apply frame_ITEM_REGISTRY_use
                           end ]).
Qed.

Lemma frame_use_item_flow who : preserves I (use_item_flow who).
Proof.
  unfold use_item_flow.
  frame_with ltac:(idtac; lazymatch goal with
                   | |- preserves _ (ai_maybe_use_item _) => apply frame_ai_maybe_use_item
                   | |- preserves _ (use_item_loop _ _) => apply frame_use_item_loop
                   end).
Qed.

Lemma frame_aim who : preserves I (aim who).
Proof. unfold aim, ai_choose_target. frame_with frame_leaf. Qed.

Lemma frame_resolve_shot shooter target : preserves I (resolve_shot shooter target).
Proof. unfold resolve_shot. frame_with frame_leaf. Qed.

End Frame.

Lemma turn_kept_by_item_phase A who w :
  turn (game w) = A -> turn (game (snd (use_item_flow who w))) = A.
Proof. apply (frame_use_item_flow (fun g => turn g = A)); by intros ? []. Qed.

Lemma turn_kept_by_aim A who w :
  turn (game w) = A -> turn (game (snd (aim who w))) = A.
Proof. apply (frame_aim (fun g => turn g = A)); by intros ? []. Qed.

Lemma resolve_shot_keep (w : World) (shooter target : Who) (shell : Shell) :
  cursor_shell (game w) = Some shell ->
  exists w',
    resolve_shot shooter target w
    = (Ok match shell with LIVE => false | BLANK => bool_decide (shooter = target) end, w')
    /\ turn (game w') = turn (game w).
Proof.
  intros Hs. unfold resolve_shot.
  rewrite (run_with_shotgun _ _ _ _ _ (fire_loaded _ _ Hs)).
  destruct shell, shooter, target; eexists; (split; [reflexivity|]); reflexivity.
Qed.

(** The shot of a turn: what [turn_loop] returns when the item phase and
    the aim have gone through and a shell is at the cursor. *)
Lemma turn_loop_shot (w w1 w2 : World) (target : Who) (shell : Shell) :
  let A := turn (game w) in
  let keep := match shell with LIVE => false | BLANK => bool_decide (A = target) end in
  skip_next (actor A (game w)) = false ->
  Shotgun.remaining (shotgun (game w)) <> 0 ->
  use_item_flow A w = (Ok tt, w1) ->
  aim A w1 = (Ok target, w2) ->
  cursor_shell (game w2) = Some shell ->
  exists w3,
    resolve_shot A target w2 = (Ok keep, w3)
    /\ turn (game w3) = A
    /\ turn_loop w
       = (Ok tt, if keep then w3 else set_game (set_turn (other A) (game w3)) w3).
Proof.
  intros A keep Hskip Hrem Hitems Haim Hshell. subst A keep.
  assert (Hturn : turn (game w2) = turn (game w)).
  { pose proof (turn_kept_by_item_phase (turn (game w)) (turn (game w)) w eq_refl) as H1.
    rewrite Hitems in H1.
    pose proof (turn_kept_by_aim (turn (game w)) (turn (game w)) w1 H1) as H2.
    by rewrite Haim in H2. }
  destruct (resolve_shot_keep w2 (turn (game w)) target shell Hshell) as (w3 & Hshot & Hturn3).
  exists w3. split; [exact Hshot|]. split; [congruence|].
  unfold turn_loop. rewrite run_get, run_get, Hskip, run_get.
  destruct (Z.eqb_spec (Shotgun.remaining (shotgun (game w))) 0); [done|].
  rewrite (run_ok _ _ _ _ _ Hitems), (run_ok _ _ _ _ _ Haim), (run_ok _ _ _ _ _ Hshot).
  by destruct (match shell with LIVE => false | BLANK => _ end).
Qed.

(** C3.  When the item phase and the aim of a turn have gone through and a
    shell is at the cursor, [turn_loop] fires it and returns; afterwards the
    turn is the opponent's if the shell was live, whoever was aimed at, and
    if it was blank the turn is the opponent's unless the shooter aimed at
    themself, in which case they keep it. *)
Theorem turn_retention (w w1 w2 : World) (target : Who) (shell : Shell) :
  let A := turn (game w) in
  skip_next (actor A (game w)) = false ->
  Shotgun.remaining (shotgun (game w)) <> 0 ->
  use_item_flow A w = (Ok tt, w1) ->
  aim A w1 = (Ok target, w2) ->
  cursor_shell (game w2) = Some shell ->
  exists w',
    turn_loop w = (Ok tt, w')
    /\ turn (game w')
       = match shell with
         | LIVE => other A
         | BLANK => if decide (A = target) then A else other A
         end.
Proof.
  intros A Hskip Hrem Hitems Haim Hshell. subst A.
  destruct (turn_loop_shot w w1 w2 target shell Hskip Hrem Hitems Haim Hshell)
    as (w3 & _ & Hturn & Hloop).
  eexists. split; [exact Hloop|].
  destruct shell; [reflexivity|].
  destruct (decide (turn (game w) = target)) as [Heq|Hne].
  - rewrite bool_decide_eq_true_2 by done. exact Hturn.
  - rewrite bool_decide_eq_false_2 by done. reflexivity.
Qed.

Lemma turn_retention_witness :
  exists w', turn_loop w_blank = (Ok tt, w') /\ turn (game w') = Player.
Proof.
  apply (turn_retention w_blank w_blank (set_stdin [] w_blank)
           Player BLANK); [reflexivity|vm_compute; lia|reflexivity|reflexivity|reflexivity].
Defined.

(** ** Reload *)

Lemma NoDup_all_items : NoDup all_items.
Proof. exact (bool_decide_unpack (NoDup all_items) I). Qed.

Lemma dealt_intro (c : Config) (inv : list ItemId) :
  fst (items_per_round c) <= Z.of_nat (length inv) <= snd (items_per_round c) ->
  inv ⊆+ all_items -> dealt c inv.
Proof.
  intros Hlen Hsub. split; [exact Hlen|]. split; [|exact Hsub].
  destruct (submseteq_Permutation _ _ Hsub) as [rest Hperm].
  pose proof NoDup_all_items as Hnd. rewrite Hperm in Hnd.
  by apply NoDup_app in Hnd as [? _].
Qed.

Lemma deal_items_to_spec (who : Who) (w : World) :
  let c := cfg (game w) in
  0 <= fst (items_per_round c) <= snd (items_per_round c) ->
  snd (items_per_round c) <= 8 ->
  exists inv r',
    deal_items_to who w
    = (Ok tt,
       {| game := upd_actor who
                    (fun a => set_knowledge Knowledge_new (set_inventory inv a)) (game w);
          stdin := stdin w;
          rng := r' |})
    /\ dealt c inv.
Proof.
  intros c Hlo Hhi. subst c. unfold deal_items_to.
  rewrite run_update, run_get.
  assert (Hcfg : cfg (game (set_game (upd_actor who (set_inventory []) (game w)) w))
                 = cfg (game w)) by (by destruct who).
  rewrite Hcfg.
  destruct (randint_range (fst (items_per_round (cfg (game w))))
              (snd (items_per_round (cfg (game w)))) (rng w)) as (k & Hk & Hkr); [lia|].
  rewrite (run_with_rng _ _ _ k (rng_tail (rng w))) by exact Hk.
  destruct (sample_spec all_items k (rng_tail (rng w))) as (inv & r' & Hs & Hlen & Hsub).
  { cbn [all_items length]. lia. }
  rewrite (run_with_rng _ _ _ inv r') by exact Hs.
  exists inv, r'. split; [by destruct who|].
  apply dealt_intro; [lia|exact Hsub].
Qed.

(** C5.  Under a configuration that can be dealt, a turn step that starts
    with the actor's [skip_next] clear and no shell left is a reload and
    nothing else: the round counter goes up by one, a freshly loaded
    sequence (cursor 0) replaces the old one, each inventory is replaced by
    a draw without replacement from the eight items whose size is in the
    configured range, both knowledge stores are new, the turn is the
    player's; HP, [skip_next], [dmg_mult] and the input are as before and
    the only message logged is the one of the new round. *)
Theorem reload_step (w : World) :
  let g := game w in
  valid_config (cfg g) ->
  skip_next (actor (turn g) g) = false ->
  Shotgun.remaining (shotgun g) = 0 ->
  exists sg inv_p inv_d r1 r',
    turn_loop w
    = (Ok tt,
       {| game := {| cfg := cfg g;
                     player := set_knowledge Knowledge_new (set_inventory inv_p (player g));
                     dealer := set_knowledge Knowledge_new (set_inventory inv_d (dealer g));
                     turn := Player;
                     shotgun := sg;
                     round_no := round_no g + 1;
                     transcript := transcript g ++ [LogNewRound] |};
          stdin := stdin w;
          rng := r' |})
    /\ Shotgun.load (min_shells (cfg g)) (max_shells (cfg g)) (rng w) = (Ok sg, r1)
    /\ index sg = 0%nat
    /\ dealt (cfg g) inv_p
    /\ dealt (cfg g) inv_d.
Proof.
  intros g (Hshells & Hitems & Hcat) Hskip Hrem. subst g.
  destruct (load_shape _ _ (rng w) Hshells) as (sg & r1 & _ & _ & Hload & _ & _ & _ & Hidx).
  unfold turn_loop. rewrite run_get, run_get, Hskip, run_get, Hrem.
  cbn [Z.eqb]. rewrite run_update. unfold log at 1. rewrite run_update, run_get.
  cbn [game set_game cfg set_transcript set_round_no].
  rewrite (run_with_rng _ _ _ sg r1) by exact Hload.
  rewrite run_update. unfold deal_items.
  match goal with |- context [bind (bind (deal_items_to Player) _) _ ?w0] =>
    destruct (deal_items_to_spec Player w0) as (inv_p & r2 & Hp & Hdp); [exact Hitems|exact Hcat|]
  end.
  unfold bind at 1. unfold bind at 1. rewrite Hp.
  match goal with |- context [deal_items_to Dealer ?w0] =>
    destruct (deal_items_to_spec Dealer w0) as (inv_d & r3 & Hd & Hdd); [exact Hitems|exact Hcat|]
  end.
  rewrite Hd.
  exists sg, inv_p, inv_d, r1, r3.
  split; [reflexivity|]. split; [exact Hload|]. split; [exact Hidx|]. split; assumption.
Qed.

Lemma reload_step_witness :
  exists sg inv_p inv_d r1 r',
    turn_loop w_reload
    = (Ok tt,
       {| game := {| cfg := Config_default;
                     player := set_knowledge Knowledge_new
                                 (set_inventory inv_p (player (game w_reload)));
                     dealer := set_knowledge Knowledge_new
                                 (set_inventory inv_d (dealer (game w_reload)));
                     turn := Player;
                     shotgun := sg;
                     round_no := 2;
                     transcript := [LogNewRound] |};
          stdin := [];
          rng := r' |})
    /\ Shotgun.load 2 8 (rng_of []) = (Ok sg, r1)
    /\ index sg = 0%nat
    /\ dealt Config_default inv_p
    /\ dealt Config_default inv_d.
Proof.
  apply (reload_step w_reload); [unfold valid_config; cbn; lia|reflexivity|reflexivity].
Defined.

(** ** Certainty about the current shell *)

Lemma nobody_knows_only_actor who g : nobody_knows g -> only_actor_knows who g.
Proof. intros H. split; [apply H|]. intros k Hk. by rewrite H in Hk. Qed.

Lemma only_actor_knows_accurate who g : only_actor_knows who g -> knowledge_accurate g.
Proof.
  intros [Ho Hk] a k Ha. destruct (decide (a = who)) as [->|Hne]; [by apply Hk|].
  assert (a = other who) as -> by (by destruct a, who). by rewrite Ho in Ha.
Qed.

Lemma preserves_aim (I : Game -> Prop) who : preserves I (aim who).
Proof. unfold aim, ai_choose_target. frame_with fail. Qed.

Section Knowledge.
Context (who : Who).

(** A write to an actor that leaves [current_known] as it is. *)
Lemma oak_upd_actor a f :
  (forall x, current_known (knowledge (f x)) = current_known (knowledge x)) ->
  preserves (only_actor_knows who) (update (upd_actor a f)).
Proof.
  intros Hf. apply preserves_update. intros g [Ho Hk]. unfold only_actor_knows, knows in *.
  destruct a, who; cbn in *; rewrite ?Hf; by split.
Qed.

Lemma oak_log msg : preserves (only_actor_knows who) (log msg).
Proof. apply preserves_update. by intros g H. Qed.

Lemma oak_pop a iid : preserves (only_actor_knows who) (pop a iid).
Proof.
  apply oak_upd_actor. intros x. unfold Actor.pop_item. by destruct (decide _).
Qed.

Ltac oak_leaf :=
  idtac;
  lazymatch goal with
  | |- preserves _ (log _) => apply oak_log
  | |- preserves _ (pop _ _) => apply oak_pop
  | |- preserves _ (update (upd_actor _ _)) => apply oak_upd_actor; intros ?; reflexivity
  end.

Lemma oak_prompt_choose_item a : preserves (only_actor_knows who) (prompt_choose_item a).
Proof. unfold prompt_choose_item. frame_with oak_leaf. Qed.

Lemma oak_MagnifyingGlass target :
  preserves (only_actor_knows who) (MagnifyingGlass_use who target).
Proof.
  intros w [Ho Hk]. unfold MagnifyingGlass_use, with_shotgun, Shotgun.peek_current.
  unfold bind at 1. unfold only_actor_knows, knows, cursor_shell in *.
  destruct (shells (shotgun (game w)) !! index (shotgun (game w))) as [s|] eqn:Hs.
  - destruct who; cbn in *; rewrite Hs; split; [done|congruence|done|congruence].
  - destruct who; cbn in *; (split; [done|]); intros k' Hk'; by specialize (Hk _ Hk').
Qed.

Lemma oak_Beer target : preserves (only_actor_knows who) (Beer_use who target).
Proof.
  intros w [Ho Hk]. unfold Beer_use, name_of. rewrite !run_get.
  destruct (Shotgun.remaining (shotgun (game w)) =? 0); [by split|].
  unfold with_shotgun, Shotgun.eject_current, Shotgun.fire. unfold bind at 1.
  unfold only_actor_knows, knows, cursor_shell in *.
  destruct (length (shells (shotgun (game w))) <=? index (shotgun (game w)))%nat.
  - destruct who; cbn in *; by split.
  - destruct (shells (shotgun (game w)) !! index (shotgun (game w))) as [s|] eqn:Hs.
    + destruct who; cbn; by split.
    + destruct who; cbn in *; (split; [done|]); intros k' Hk'; by specialize (Hk _ Hk').
Qed.

Lemma oak_Inverter target : preserves (only_actor_knows who) (Inverter_use who target).
Proof.
  intros w [Ho Hk]. unfold Inverter_use.
  unfold only_actor_knows, knows, cursor_shell in *.
  destruct (shells (shotgun (game w)) !! index (shotgun (game w))) as [s|] eqn:Hs.
  - pose proof (lookup_lt_Some _ _ _ Hs) as Hlt.
    rewrite (run_with_shotgun _ _ _ _ _ (invert_loaded _ _ Hs)), run_get.
    destruct who; cbn in *;
      match goal with
      | |- context [match current_known ?k with _ => _ end] =>
          destruct (current_known k) as [c|] eqn:Hc
      end; cbn; rewrite ?Hc; (split; [done|]); intros k' Hk'; simplify_eq;
      rewrite list_lookup_insert_eq by done; f_equal;
      specialize (Hk _ eq_refl); congruence.
  - rewrite (run_with_shotgun _ _ _ _ _ (invert_empty _ Hs)), run_get.
    destruct who; cbn in *;
      match goal with
      | |- context [match current_known ?k with _ => _ end] =>
          destruct (current_known k) as [c|] eqn:Hc
      end; cbn; try (by specialize (Hk _ eq_refl));
      (split; [done|]); intros k' Hk'; congruence.
Qed.

Lemma oak_item_use fuel : forall iid target,
  preserves (only_actor_knows who) (item_use fuel iid who target).
Proof.
  induction fuel as [|fuel IH]; intros iid target; destruct iid; cbn [item_use];
    try apply oak_MagnifyingGlass; try apply oak_Beer; try apply oak_Inverter;
    unfold Handcuffs_use, HandSaw_use, BurnerPhone_use, Cigarette_use, Adrenaline_use;
    frame_with ltac:(first [ oak_leaf
                           | lazymatch goal with
                             | |- preserves _ (prompt_choose_item _) =>
                                 apply oak_prompt_choose_item
                             | |- preserves _ (item_use _ _ _ _) => apply IH
                             end ]).
Qed.

Lemma oak_ITEM_REGISTRY_use iid target :
  preserves (only_actor_knows who) (ITEM_REGISTRY_use iid who target).
Proof. intros w. apply oak_item_use. Qed.

Lemma oak_use_item_loop fuel : preserves (only_actor_knows who) (use_item_loop fuel who).
Proof.
  induction fuel as [|fuel IH]; cbn [use_item_loop]; [apply preserves_out_of_fuel|].
  frame_with ltac:(idtac; lazymatch goal with
                   | |- preserves _ (prompt_choose_item _) => apply oak_prompt_choose_item
                   | |- preserves _ (ITEM_REGISTRY_use _ _ _) => apply oak_ITEM_REGISTRY_use
                   | |- preserves _ (use_item_loop _ _) => apply IH
                   end).
Qed.

Lemma oak_ai_maybe_use_item : preserves (only_actor_knows who) (ai_maybe_use_item who).
Proof.
  unfold ai_maybe_use_item, chance.
  frame_with ltac:(first [ oak_leaf
                         | lazymatch goal with
                           | |- preserves _ (ITEM_REGISTRY_use _ _ _) =>
                               apply oak_ITEM_REGISTRY_use
                           end ]).
Qed.

Lemma oak_use_item_flow : preserves (only_actor_knows who) (use_item_flow who).
Proof.
  unfold use_item_flow.
  frame_with ltac:(idtac; lazymatch goal with
                   | |- preserves _ (ai_maybe_use_item _) => apply oak_ai_maybe_use_item
                   | |- preserves _ (use_item_loop _ _) => apply oak_use_item_loop
                   end).
Qed.

End Knowledge.

(** A shot leaves nobody certain; the shot that cannot be fired changes
    neither the certainties nor the shells. *)
Lemma resolve_shot_knowledge (who : Who) (shooter target : Who) (w : World) :
  only_actor_knows who (game w) ->
  match resolve_shot shooter target w with
  | (Ok _, w') => nobody_knows (game w')
  | (_, w') => only_actor_knows who (game w')
  end.
Proof.
  intros H. destruct (cursor_shell (game w)) as [s|] eqn:Hs.
  - unfold resolve_shot.
    rewrite (run_with_shotgun _ _ _ _ _ (fire_loaded _ _ Hs)).
    destruct s, shooter, target; cbn; by intros [].
  - unfold resolve_shot, with_shotgun. unfold bind at 1.
    rewrite fire_empty by (by apply lookup_ge_None).
    destruct H as [Ho Hk]. unfold only_actor_knows, knows, cursor_shell in *.
    destruct who; cbn in *; by split.
Qed.

Section NobodyKnows.

Lemma nk_update f :
  (forall g who, knows who (f g) = knows who g \/ knows who (f g) = None) ->
  preserves nobody_knows (update f).
Proof.
  intros Hf. apply preserves_update. intros g H a.
  destruct (Hf g a) as [->| ->]; [apply H|done].
Qed.

Lemma nk_upd_actor a f :
  (forall x, current_known (knowledge (f x)) = current_known (knowledge x)
             \/ current_known (knowledge (f x)) = None) ->
  preserves nobody_knows (update (upd_actor a f)).
Proof.
  intros Hf. apply nk_update. intros g b. unfold knows.
  destruct a, b; cbn; auto.
Qed.

Lemma nk_deal_items_to who : preserves nobody_knows (deal_items_to who).
Proof.
  unfold deal_items_to.
  frame_with ltac:(idtac; lazymatch goal with
                   | |- preserves _ (update (upd_actor _ _)) =>
                       apply nk_upd_actor; intros ?; auto
                   end).
Qed.

Lemma nk_deal_items : preserves nobody_knows deal_items.
Proof. apply preserves_bind; [|intros _]; apply nk_deal_items_to. Qed.

End NobodyKnows.

Lemma Game_init_nobody_knows c inp r w :
  Game_init c inp r = Ok w -> nobody_knows (game w).
Proof.
  unfold Game_init. destruct (Shotgun.load _ _ r) as [[sg| |] r']; try discriminate.
  match goal with |- context [deal_items ?w0] =>
    pose proof (nk_deal_items w0) as H; destruct (deal_items w0) as [[[]| |] w1]
  end; intros Heq; simplify_eq.
  apply H. by intros [].
Qed.

(** A turn starts and ends with nobody certain; if it is cut short, those
    who are certain are right. *)
Lemma turn_loop_knowledge (w : World) :
  nobody_knows (game w) ->
  match turn_loop w with
  | (Ok _, w') => nobody_knows (game w')
  | (_, w') => knowledge_accurate (game w')
  end.
Proof.
  intros Hnk. unfold turn_loop. rewrite !run_get.
  set (who := turn (game w)).
  destruct (skip_next (actor who (game w))).
  { intros a. specialize (Hnk a). unfold knows in *. by destruct who, a. }
  rewrite run_get. destruct (Shotgun.remaining (shotgun (game w)) =? 0).
  - match goal with |- match ?m w with _ => _ end =>
      assert (Hp : preserves nobody_knows m)
    end.
    { frame_with ltac:(idtac; lazymatch goal with
                       | |- preserves _ deal_items => apply nk_deal_items
                       | |- preserves _ (update _) => apply nk_update; intros ? []; auto
                       | |- preserves _ (log _) => apply nk_update; intros ? []; auto
                       end). }
    specialize (Hp w Hnk).
    match goal with |- match ?m w with _ => _ end => destruct (m w) as [[[]| |] w'] end;
      cbn in Hp; [exact Hp|..]; eapply only_actor_knows_accurate;
      by apply (nobody_knows_only_actor Player).
  - pose proof (oak_use_item_flow who w (nobody_knows_only_actor who _ Hnk)) as H1.
    unfold bind at 1. destruct (use_item_flow who w) as [[[]| |] w1]; cbn in H1;
      try (by eapply only_actor_knows_accurate).
    pose proof (preserves_aim (only_actor_knows who) who w1 H1) as H2.
    unfold bind at 1. destruct (aim who w1) as [[target| |] w2]; cbn in H2;
      try (by eapply only_actor_knows_accurate).
    pose proof (resolve_shot_knowledge who who target w2 H2) as H3.
    unfold bind at 1. destruct (resolve_shot who target w2) as [[keep| |] w3];
      try (by eapply only_actor_knows_accurate).
    destruct keep; [exact H3|]. intros a. specialize (H3 a). by destruct a.
Qed.

(** C10.  In every game that a play reaches, between turns, inside an item
    phase or at a crash, an actor whose [current_known] is set knows the
    shell that is at the cursor. *)
Theorem current_known_accurate (ph : Phase) (g : Game) :
  reachable ph g -> knowledge_accurate g.
Proof.
  intros Hr.
  assert (Hinv : match ph with
                 | TurnStart => nobody_knows g
                 | ItemPhase who => only_actor_knows who g
                 | Crashed => knowledge_accurate g
                 end).
  { induction Hr as [c inp r w Hinit
                    | w w' _ IH _ Hturn
                    | w e w' _ IH _ Hturn
                    | g _ IH _ _ _
                    | who w iid w' _ IH Hprompt
                    | who w iid r w' _ IH Hpop
                    | who w iid target r w' _ IH Huse].
    - by eapply Game_init_nobody_knows.
    - pose proof (turn_loop_knowledge w IH) as H. by rewrite Hturn in H.
    - pose proof (turn_loop_knowledge w IH) as H. by rewrite Hturn in H.
    - by apply nobody_knows_only_actor.
    - pose proof (oak_prompt_choose_item who who w IH) as H. by rewrite Hprompt in H.
    - pose proof (oak_pop who who iid w IH) as H. by rewrite Hpop in H.
    - pose proof (oak_ITEM_REGISTRY_use who iid target w IH) as H. by rewrite Huse in H. }
  destruct ph; [|by eapply only_actor_knows_accurate|exact Hinv].
  eapply only_actor_knows_accurate. by apply (nobody_knows_only_actor Player).
Qed.

Lemma current_known_accurate_witness :
  exists g,
    reachable (ItemPhase Player) g
    /\ knows Player g = Some BLANK
    /\ knowledge_accurate g.
Proof.
  let r := eval vm_compute in (Game_init Config_default [LNum 2] beer_rng) in
  lazymatch r with Ok ?w => pose (w1 := w) end.
  let r := eval vm_compute in (prompt_choose_item Player w1) in
  lazymatch r with (_, ?w) => pose (w2 := w) end.
  let r := eval vm_compute in (ITEM_REGISTRY_use MAGNIFYING_GLASS Player Dealer w2) in
  lazymatch r with (_, ?w) => pose (w3 := w) end.
  assert (H1 : reachable TurnStart (game w1)).
  { apply (reach_init Config_default [LNum 2] beer_rng w1). vm_compute. reflexivity. }
  assert (H2 : reachable (ItemPhase Player) (game w1)).
  { apply (reach_item_phase (game w1) H1); [reflexivity|reflexivity|vm_compute; discriminate]. }
  assert (H3 : reachable (ItemPhase Player) (game w2)).
  { apply (reach_choose Player w1 MAGNIFYING_GLASS w2 H2). vm_compute. reflexivity. }
  assert (H4 : reachable (ItemPhase Player) (game w3)).
  { apply (reach_use Player w2 MAGNIFYING_GLASS Dealer (Ok tt) w3 H3). vm_compute. reflexivity. }
  exists (game w3). split; [exact H4|]. split; [reflexivity|].
  exact (current_known_accurate (ItemPhase Player) (game w3) H4).
Defined.

(** ** Inventories and the bounded loops *)

Lemma length_remove_first_le x l : (length (remove_first x l) <= length l)%nat.
Proof.
  induction l as [|y l IH]; [done|]. cbn. destruct (decide (y = x)); cbn; lia.
Qed.

Lemma length_remove_first_in x l :
  x ∈ l -> length (remove_first x l) = (length l - 1)%nat.
Proof.
  induction l as [|y l IH]; [by intros ?%elem_of_nil|].
  intros Hin. cbn. destruct (decide (y = x)) as [|Hne]; [lia|].
  apply elem_of_cons in Hin as [->|Hin]; [done|].
  cbn. rewrite IH by done. destruct l; [by apply elem_of_nil in Hin|cbn; lia].
Qed.

Lemma inventory_pop_item iid a :
  inventory (snd (Actor.pop_item iid a)) = remove_first iid (inventory a)
  \/ ((iid ∉ inventory a) /\ inventory (snd (Actor.pop_item iid a)) = inventory a).
Proof. unfold Actor.pop_item. destruct (decide _); cbn; auto. Qed.

Lemma length_pop_item_le iid a :
  (length (inventory (snd (Actor.pop_item iid a))) <= length (inventory a))%nat.
Proof.
  destruct (inventory_pop_item iid a) as [->|[_ ->]]; [apply length_remove_first_le|done].
Qed.

Lemma length_pop_item_in iid a :
  iid ∈ inventory a ->
  length (inventory (snd (Actor.pop_item iid a))) = (length (inventory a) - 1)%nat.
Proof.
  intros Hin. unfold Actor.pop_item. destruct (decide _); [|done].
  by apply length_remove_first_in.
Qed.

Lemma read_choice_cases inv inp :
  match read_choice inv inp with
  | (Ok (Some iid), _) => iid ∈ inv
  | (Ok None, _) | (Raise _, _) => True
  | (OutOfFuel, _) => False
  end.
Proof.
  induction inp as [|l inp IH]; [done|]. destruct l as [|[|i]| | | |]; cbn; try done.
  destruct (inv !! i) as [iid|] eqn:Hi; [|done].
  apply list_elem_of_lookup. eauto.
Qed.

(** What [prompt_choose_item] does to the game: the chosen item, which the
    actor held, has left the inventory; without a choice nothing changed. *)
Lemma prompt_choose_item_cases (who : Who) (w : World) :
  match prompt_choose_item who w with
  | (Ok (Some iid), w') =>
      iid ∈ inventory (actor who (game w))
      /\ ai (actor who (game w)) = false
      /\ game w' = upd_actor who (fun a => snd (Actor.pop_item iid a)) (game w)
  | (Ok None, w') | (Raise _, w') => game w' = game w
  | (OutOfFuel, _) => False
  end.
Proof.
  unfold prompt_choose_item. rewrite run_get.
  destruct (ai (actor who (game w))); [done|].
  cbn [orb]. destruct (bool_decide _); [done|].
  unfold with_stdin. unfold bind at 1.
  pose proof (read_choice_cases (inventory (actor who (game w))) (stdin w)) as H.
  destruct (read_choice _ _) as [[[iid|]| |] rest]; try done.
Qed.

Section InventoryBound.
Context (who : Who) (n : nat).

Lemma iw_upd_actor a f :
  (forall x, (length (inventory (f x)) <= length (inventory x))%nat) ->
  preserves (inventory_within who n) (update (upd_actor a f)).
Proof.
  intros Hf. apply preserves_update. intros g H. unfold inventory_within in *.
  destruct a, who; cbn in *; try done; (etrans; [apply Hf|done]).
Qed.

Lemma iw_with_shotgun {A} (m : M Shotgun A) : preserves (inventory_within who n) (with_shotgun m).
Proof.
  intros w H. unfold with_shotgun. destruct (m _). unfold inventory_within in *.
  by destruct who.
Qed.

Lemma iw_log msg : preserves (inventory_within who n) (log msg).
Proof. apply preserves_update. intros g H. unfold inventory_within in *. by destruct who. Qed.

Ltac iw_leaf :=
  idtac;
  lazymatch goal with
  | |- preserves _ (with_shotgun _) => apply iw_with_shotgun
  | |- preserves _ (log _) => apply iw_log
  | |- preserves _ (pop _ _) => apply iw_upd_actor; intros ?; apply length_pop_item_le
  | |- preserves _ (set_known _ _) => apply iw_upd_actor; intros ?; reflexivity
  | |- preserves _ (update (upd_actor _ _)) => apply iw_upd_actor; intros ?; reflexivity
  end.

Lemma iw_prompt_choose_item a : preserves (inventory_within who n) (prompt_choose_item a).
Proof. unfold prompt_choose_item. frame_with iw_leaf. Qed.

Lemma iw_item_use fuel : forall iid user target,
  preserves (inventory_within who n) (item_use fuel iid user target).
Proof.
  induction fuel as [|fuel IH]; intros iid user target; destruct iid; cbn [item_use];
    unfold MagnifyingGlass_use, Beer_use, Handcuffs_use, HandSaw_use, Inverter_use,
      BurnerPhone_use, Cigarette_use, Adrenaline_use;
    frame_with ltac:(first [ iw_leaf
                           | lazymatch goal with
                             | |- preserves _ (prompt_choose_item _) =>
                                 apply iw_prompt_choose_item
                             | |- preserves _ (item_use _ _ _ _) => apply IH
                             end ]).
Qed.

End InventoryBound.

(** The nesting of Adrenaline inside Adrenaline ends: the fuel that
    [ITEM_REGISTRY_use] provides is never used up. *)
Lemma item_use_total (fuel : nat) : forall iid user target w,
  (length (inventory (actor target (game w))) < fuel)%nat ->
  fst (item_use fuel iid user target w) <> OutOfFuel.
Proof.
  induction fuel as [|fuel IH]; intros iid user target w Hlen; [lia|].
  destruct iid; cbn [item_use].
  - unfold MagnifyingGlass_use, with_shotgun, Shotgun.peek_current. unfold bind at 1.
    by destruct (shells _ !! _).
  - unfold Beer_use, name_of. rewrite !run_get. destruct (_ =? 0); [done|].
    unfold with_shotgun, Shotgun.eject_current, Shotgun.fire. unfold bind at 1.
    destruct (_ <=? _)%nat; [done|]. by destruct (shells _ !! _).
  - done.
  - done.
  - unfold Inverter_use, with_shotgun, Shotgun.invert_current. unfold bind at 1.
    destruct (_ <=? _)%nat; [|destruct (shells _ !! _); [|done]];
      rewrite run_get; by destruct (current_known _).
  - unfold BurnerPhone_use, name_of. rewrite !run_get. destruct (_ <=? 1); [done|].
    unfold with_rng, randint. unfold bind at 1. destruct (_ <? 1); [done|].
    cbn. by destruct (shells _ !! _).
  - done.
  - unfold Adrenaline_use, name_of. rewrite !run_get.
    destruct (bool_decide_reflect (inventory (actor target (game w)) = [])) as [|Hne]; [done|].
    rewrite run_get. destruct (ai (actor user (game w))).
    + destruct (choice_spec _ (rng w) Hne) as (x & Hx & Hin).
      unfold bind at 1. rewrite (run_with_rng _ _ _ x (rng_tail (rng w)) Hx).
      cbn [ret]. unfold pop. rewrite run_update, run_get. unfold log at 1. rewrite run_update.
      apply IH. cbn [game set_game set_rng].
      pose proof (length_pop_item_in x (actor target (game w)) Hin) as Hpop.
      destruct (inventory (actor target (game w))) eqn:Hinv; [done|].
      destruct target; cbn in *; rewrite ?Hinv in *; cbn in *; lia.
    + pose proof (prompt_choose_item_cases target w) as Hp.
      unfold bind at 1.
      destruct (prompt_choose_item target w) as [[[iid|]| |] w1]; try done.
      destruct Hp as (Hin & _ & Hg).
      unfold pop. rewrite run_update, run_get. unfold log at 1. rewrite run_update.
      apply IH. cbn [game set_game]. rewrite Hg.
      pose proof (length_pop_item_in iid (actor target (game w)) Hin) as Hpop.
      pose proof (length_pop_item_le iid (snd (Actor.pop_item iid (actor target (game w))))) as Hle.
      destruct (inventory (actor target (game w))) eqn:Hinv; [done|].
      destruct target; cbn in *; rewrite ?Hinv in *; cbn in *; lia.
Qed.

Lemma ITEM_REGISTRY_use_total iid user target w :
  fst (ITEM_REGISTRY_use iid user target w) <> OutOfFuel.
Proof. apply item_use_total. lia. Qed.

Lemma iw_ITEM_REGISTRY_use who n iid user target :
  preserves (inventory_within who n) (ITEM_REGISTRY_use iid user target).
Proof. intros w. apply iw_item_use. Qed.

Lemma noof_bind {A B} (m : M World A) (f : A -> M World B) :
  never_out_of_fuel m -> (forall a, never_out_of_fuel (f a)) ->
  never_out_of_fuel (bind m f).
Proof.
  intros Hm Hf w. unfold bind. specialize (Hm w).
  destruct (m w) as [[a| |] w']; [apply Hf|done|done].
Qed.

Lemma noof_with_rng_random_lt p : never_out_of_fuel (with_rng (random_lt p)).
Proof. by intros w. Qed.

Lemma noof_chance c p : never_out_of_fuel (chance c p).
Proof. destruct c; [apply noof_with_rng_random_lt|by intros w]. Qed.

Ltac noof :=
  repeat first
    [ lazymatch goal with
      | |- never_out_of_fuel (bind _ _) => apply noof_bind; [|intros ?]
      | |- never_out_of_fuel (chance _ _) => apply noof_chance
      | |- never_out_of_fuel (ITEM_REGISTRY_use _ _ _) =>
          intros ?; apply ITEM_REGISTRY_use_total
      | |- never_out_of_fuel (if ?c then _ else _) => destruct c
      | |- never_out_of_fuel (match ?x with _ => _ end) => destruct x
      | |- never_out_of_fuel _ => by intros ?
      end ].

Lemma ai_maybe_use_item_total who : never_out_of_fuel (ai_maybe_use_item who).
Proof. unfold ai_maybe_use_item. noof. Qed.

Lemma use_item_loop_total who (fuel : nat) : forall w,
  (length (inventory (actor who (game w))) < fuel)%nat ->
  fst (use_item_loop fuel who w) <> OutOfFuel.
Proof.
  induction fuel as [|fuel IH]; intros w Hlen; [lia|]. cbn [use_item_loop].
  pose proof (prompt_choose_item_cases who w) as Hp. unfold bind at 1.
  destruct (prompt_choose_item who w) as [[[iid|]| |] w1]; try done.
  destruct Hp as (Hin & _ & Hg).
  pose proof (ITEM_REGISTRY_use_total iid who (other who) w1) as Htot.
  pose proof (iw_ITEM_REGISTRY_use who (length (inventory (actor who (game w1))))
                iid who (other who) w1 (Nat.le_refl _)) as Hiw.
  unfold inventory_within in Hiw. unfold bind at 1.
  destruct (ITEM_REGISTRY_use iid who (other who) w1) as [[[]| |] w2]; try done.
  apply IH. cbn in Hiw. rewrite Hg, actor_upd_same in Hiw.
  rewrite (length_pop_item_in _ _ Hin) in Hiw.
  destruct (inventory (actor who (game w))); [by apply elem_of_nil in Hin|cbn in *; lia].
Qed.

(** The item phase ends: the fuel of the human loop is never used up. *)
Lemma use_item_flow_total who : never_out_of_fuel (use_item_flow who).
Proof.
  intros w. unfold use_item_flow. rewrite run_get.
  destruct (ai (actor who (game w))); [apply ai_maybe_use_item_total|].
  rewrite run_get. apply use_item_loop_total. lia.
Qed.

(** The games that [use_item_flow] goes through are games of the item
    phase. *)
Section ItemPhaseCovered.
Context (who : Who).

Lemma ip_pop iid : preserves (reachable (ItemPhase who)) (pop who iid).
Proof. intros w H. destruct (pop who iid w) as [r w'] eqn:E. by eapply reach_pop. Qed.

Lemma ip_ITEM_REGISTRY_use iid target :
  preserves (reachable (ItemPhase who)) (ITEM_REGISTRY_use iid who target).
Proof.
  intros w H. destruct (ITEM_REGISTRY_use iid who target w) as [r w'] eqn:E.
  by eapply reach_use.
Qed.

Lemma ip_prompt_choose_item :
  preserves (reachable (ItemPhase who)) (prompt_choose_item who).
Proof.
  intros w H. pose proof (prompt_choose_item_cases who w) as Hp.
  destruct (prompt_choose_item who w) as [[[iid|]| |] w'] eqn:E; cbn;
    [by eapply reach_choose|by rewrite Hp..|done].
Qed.

Ltac ip_leaf :=
  idtac;
  lazymatch goal with
  | |- preserves _ (pop _ _) => apply ip_pop
  | |- preserves _ (ITEM_REGISTRY_use _ _ _) => apply ip_ITEM_REGISTRY_use
  | |- preserves _ (prompt_choose_item _) => apply ip_prompt_choose_item
  end.

Lemma ip_use_item_loop fuel : preserves (reachable (ItemPhase who)) (use_item_loop fuel who).
Proof.
  induction fuel as [|fuel IH]; cbn [use_item_loop]; [apply preserves_out_of_fuel|].
  frame_with ltac:(first [ ip_leaf
                         | lazymatch goal with
                           | |- preserves _ (use_item_loop _ _) => apply IH
                           end ]).
Qed.

Lemma ip_ai_maybe_use_item : preserves (reachable (ItemPhase who)) (ai_maybe_use_item who).
Proof. unfold ai_maybe_use_item, chance. frame_with ip_leaf. Qed.

Lemma use_item_flow_reachable : preserves (reachable (ItemPhase who)) (use_item_flow who).
Proof.
  unfold use_item_flow.
  frame_with ltac:(idtac; lazymatch goal with
                   | |- preserves _ (ai_maybe_use_item _) => apply ip_ai_maybe_use_item
                   | |- preserves _ (use_item_loop _ _) => apply ip_use_item_loop
                   end).
Qed.

End ItemPhaseCovered.

(** C1.  A play of the default configuration in which the rule fails.  The
    round is loaded as [[BLANK; LIVE]] and the player is dealt a Beer.  The
    player shoots themself with the blank and keeps the turn; with one
    shell left they use the Beer, which ejects it, and the same turn goes
    on to the shot: [fire] is called on the exhausted sequence and raises
    the error of the empty shotgun. *)
Theorem beer_on_last_shell_fires_empty :
  exists w1 w2 w3,
    Game_init Config_default beer_stdin beer_rng = Ok w1
    /\ shells (shotgun (game w1)) = [BLANK; LIVE]
    /\ inventory (player (game w1)) = [BEER; MAGNIFYING_GLASS]
    /\ turn_loop w1 = (Ok tt, w2)
    /\ reachable TurnStart (game w2)
    /\ both_alive (game w2) = true
    /\ turn (game w2) = Player
    /\ Shotgun.remaining (shotgun (game w2)) = 1
    /\ turn_loop w2 = (Raise RuntimeError, w3)
    /\ Shotgun.remaining (shotgun (game w3)) = 0
    /\ fst (play 2 w1) = Raise RuntimeError.
Proof.
  let r := eval vm_compute in (Game_init Config_default beer_stdin beer_rng) in
  lazymatch r with Ok ?w => pose (w1 := w) end.
  let r := eval vm_compute in (turn_loop w1) in
  lazymatch r with (_, ?w) => pose (w2 := w) end.
  let r := eval vm_compute in (turn_loop w2) in
  lazymatch r with (_, ?w) => pose (w3 := w) end.
  assert (H1 : Game_init Config_default beer_stdin beer_rng = Ok w1)
    by (vm_compute; reflexivity).
  assert (H2 : turn_loop w1 = (Ok tt, w2)) by (vm_compute; reflexivity).
  exists w1, w2, w3.
  split; [exact H1|]. split; [reflexivity|]. split; [reflexivity|].
  split; [exact H2|].
  split; [apply (reach_turn w1 w2); [exact (reach_init _ _ _ _ H1)|reflexivity|exact H2]|].
  split; [reflexivity|]. split; [reflexivity|]. split; [reflexivity|].
  split; [vm_compute; reflexivity|].
  split; [reflexivity|]. vm_compute; reflexivity.
Qed.

(** ** The dealer's turn *)

Lemma succeeds_ret {A} (a : A) : succeeds (ret a).
Proof. intros w H. split; [by exists a|exact H]. Qed.

Lemma succeeds_get {A} (f : Game -> A) : succeeds (get f).
Proof. intros w H. split; [by eexists|exact H]. Qed.

Lemma succeeds_bind {A B} (m : M World A) (f : A -> M World B) :
  succeeds m -> (forall a, succeeds (f a)) -> succeeds (bind m f).
Proof.
  intros Hm Hf w H. destruct (Hm w H) as [[a Ha] Hl]. unfold bind.
  destruct (m w) as [r w']. cbn in Ha, Hl. subst r. by apply Hf.
Qed.

Lemma succeeds_chance c p : succeeds (chance c p).
Proof. intros w H. destruct c; (split; [by eexists|exact H]). Qed.

Lemma succeeds_upd_actor a f : succeeds (update (upd_actor a f)).
Proof. intros w H. split; [by eexists|]. unfold loaded in *. by destruct a. Qed.

Lemma succeeds_log msg : succeeds (log msg).
Proof. intros w H. split; [by eexists|exact H]. Qed.

Lemma succeeds_peek : succeeds (with_shotgun Shotgun.peek_current).
Proof.
  intros w H. destruct (remaining_cursor_shell _ H) as [s Hs].
  unfold with_shotgun, Shotgun.peek_current. unfold cursor_shell in Hs. rewrite Hs.
  split; [by eexists|]. unfold loaded in *. by destruct (game w) as [? ? ? ? [] ? ?].
Qed.

Ltac succeeds_with leaf :=
  repeat first
    [ leaf
    | lazymatch goal with
      | |- succeeds (bind _ _) => apply succeeds_bind; [|intros ?]
      | |- succeeds (ret _) => apply succeeds_ret
      | |- succeeds (get _) => apply succeeds_get
      | |- succeeds (name_of _) => apply succeeds_get
      | |- succeeds (chance _ _) => apply succeeds_chance
      | |- succeeds (log _) => apply succeeds_log
      | |- succeeds (pop _ _) => apply succeeds_upd_actor
      | |- succeeds (set_known _ _) => apply succeeds_upd_actor
      | |- succeeds (update (upd_actor _ _)) => apply succeeds_upd_actor
      | |- succeeds (with_shotgun Shotgun.peek_current) => apply succeeds_peek
      | |- succeeds (if ?c then _ else _) => destruct c
      | |- succeeds (match ?x with _ => _ end) => destruct x
      end ].

Lemma succeeds_Cigarette user target : succeeds (ITEM_REGISTRY_use CIGARETTE user target).
Proof.
  change (succeeds (Cigarette_use user target)). unfold Cigarette_use.
  succeeds_with fail.
Qed.

Lemma succeeds_MagnifyingGlass user target :
  succeeds (ITEM_REGISTRY_use MAGNIFYING_GLASS user target).
Proof.
  change (succeeds (MagnifyingGlass_use user target)). unfold MagnifyingGlass_use.
  succeeds_with fail.
Qed.

Lemma succeeds_HandSaw user target : succeeds (ITEM_REGISTRY_use HAND_SAW user target).
Proof.
  change (succeeds (HandSaw_use user target)). unfold HandSaw_use. succeeds_with fail.
Qed.

Lemma succeeds_Handcuffs user target : succeeds (ITEM_REGISTRY_use HANDCUFFS user target).
Proof.
  change (succeeds (Handcuffs_use user target)). unfold Handcuffs_use. succeeds_with fail.
Qed.

(** The Beer of the AI: it is used with more than two shells left, and
    leaves more than one. *)
Lemma ai_beer_keeps_loaded (me : Who) (w : World) :
  2 < Shotgun.remaining (shotgun (game w)) ->
  exists w', (pop me BEER ;; ITEM_REGISTRY_use BEER me Player) w = (Ok tt, w')
             /\ 2 <= Shotgun.remaining (shotgun (game w')).
Proof.
  intros Hrem. unfold pop. rewrite run_update.
  change (ITEM_REGISTRY_use BEER me Player) with (Beer_use me Player).
  unfold Beer_use, name_of. rewrite !run_get.
  assert (Hsg : forall f, shotgun (game (set_game (upd_actor me f (game w)) w))
                          = shotgun (game w)) by (by destruct me).
  rewrite Hsg.
  destruct (Z.eqb_spec (Shotgun.remaining (shotgun (game w))) 0); [lia|].
  destruct (remaining_cursor_shell (game w)) as [s Hs]; [lia|].
  unfold cursor_shell in Hs.
  erewrite run_with_shotgun; [|rewrite Hsg; exact (fire_loaded _ _ Hs)].
  eexists. split; [reflexivity|].
  unfold Shotgun.remaining in *. destruct me; cbn; lia.
Qed.

Lemma chance_true p w :
  exists go, chance true p w = (Ok go, set_rng (rng_tail (rng w)) w).
Proof. by eexists. Qed.

Lemma succeeds_guarded_beer (me : Who) {B} (rest : M World B) :
  succeeds rest ->
  succeeds (c <- get (fun g => (2 <? Shotgun.remaining (shotgun g)) && holds me BEER g) ;;
            go <- chance c double_0_15 ;;
            (if go : bool then pop me BEER ;; ITEM_REGISTRY_use BEER me Player else ret tt) ;;
            rest).
Proof.
  intros Hrest w Hw. rewrite run_get.
  destruct (Z.ltb_spec 2 (Shotgun.remaining (shotgun (game w)))) as [Hlt|_]; cbn [andb].
  - destruct (holds me BEER (game w)); [|unfold chance; rewrite !run_ret; by apply Hrest].
    destruct (chance_true double_0_15 w) as [go Hgo]. rewrite (run_ok _ _ _ _ _ Hgo).
    destruct go; [|rewrite run_ret; by apply Hrest].
    destruct (ai_beer_keeps_loaded me (set_rng (rng_tail (rng w)) w) Hlt) as (w' & Hb & Hl).
    rewrite (run_ok _ _ _ _ _ Hb). apply Hrest. unfold loaded. lia.
  - unfold chance. rewrite !run_ret. by apply Hrest.
Qed.

Lemma succeeds_ai_maybe_use_item me : succeeds (ai_maybe_use_item me).
Proof.
  unfold ai_maybe_use_item.
  succeeds_with ltac:(idtac; lazymatch goal with
    | |- succeeds (bind (get (fun g => (2 <? _) && _)) _) => apply succeeds_guarded_beer
    | |- succeeds (ITEM_REGISTRY_use CIGARETTE _ _) => apply succeeds_Cigarette
    | |- succeeds (ITEM_REGISTRY_use MAGNIFYING_GLASS _ _) => apply succeeds_MagnifyingGlass
    | |- succeeds (ITEM_REGISTRY_use HAND_SAW _ _) => apply succeeds_HandSaw
    | |- succeeds (ITEM_REGISTRY_use HANDCUFFS _ _) => apply succeeds_Handcuffs
    end).
Qed.

Lemma succeeds_ai_choose_target me : succeeds (ai_choose_target me).
Proof. unfold ai_choose_target. succeeds_with fail. Qed.

(** The item phase never writes the [ai] flag of an actor. *)
Section AiFlag.
Context (who : Who) (b : bool).

Lemma af_upd_actor a f :
  (forall x, ai (f x) = ai x) -> preserves (ai_is who b) (update (upd_actor a f)).
Proof.
  intros Hf. apply preserves_update. intros g H. unfold ai_is in *.
  destruct a, who; cbn in *; by rewrite ?Hf.
Qed.

Lemma af_with_shotgun {A} (m : M Shotgun A) : preserves (ai_is who b) (with_shotgun m).
Proof.
  intros w H. unfold with_shotgun. destruct (m _). unfold ai_is in *. by destruct who.
Qed.

Lemma af_log msg : preserves (ai_is who b) (log msg).
Proof. apply preserves_update. intros g H. unfold ai_is in *. by destruct who. Qed.

Lemma ai_pop_item iid x : ai (snd (Actor.pop_item iid x)) = ai x.
Proof. unfold Actor.pop_item. by destruct (decide _). Qed.

Ltac af_leaf :=
  idtac;
  lazymatch goal with
  | |- preserves _ (with_shotgun _) => apply af_with_shotgun
  | |- preserves _ (log _) => apply af_log
  | |- preserves _ (pop _ _) => apply af_upd_actor; intros ?; apply ai_pop_item
  | |- preserves _ (set_known _ _) => apply af_upd_actor; intros ?; reflexivity
  | |- preserves _ (update (upd_actor _ _)) => apply af_upd_actor; intros ?; reflexivity
  end.

Lemma af_prompt_choose_item a : preserves (ai_is who b) (prompt_choose_item a).
Proof. unfold prompt_choose_item. frame_with af_leaf. Qed.

Lemma af_item_use fuel : forall iid user target,
  preserves (ai_is who b) (item_use fuel iid user target).
Proof.
  induction fuel as [|fuel IH]; intros iid user target; destruct iid; cbn [item_use];
    unfold MagnifyingGlass_use, Beer_use, Handcuffs_use, HandSaw_use, Inverter_use,
      BurnerPhone_use, Cigarette_use, Adrenaline_use;
    frame_with ltac:(first [ af_leaf
                           | lazymatch goal with
                             | |- preserves _ (prompt_choose_item _) =>
                                 apply af_prompt_choose_item
                             | |- preserves _ (item_use _ _ _ _) => apply IH
                             end ]).
Qed.

Lemma af_ITEM_REGISTRY_use iid user target :
  preserves (ai_is who b) (ITEM_REGISTRY_use iid user target).
Proof. intros w. apply af_item_use. Qed.

Lemma af_ai_maybe_use_item me : preserves (ai_is who b) (ai_maybe_use_item me).
Proof.
  unfold ai_maybe_use_item, chance.
  frame_with ltac:(first [ af_leaf
                         | lazymatch goal with
                           | |- preserves _ (ITEM_REGISTRY_use _ _ _) =>
                               apply af_ITEM_REGISTRY_use
                           end ]).
Qed.

End AiFlag.

(** X25.  On the AI's turn the shot is never fired on an empty gun: with a
    shell at the cursor when the turn starts, the item phase returns and
    leaves one there, the aim returns, and [turn_loop] fires and returns. *)
Lemma ai_turn_fires_loaded (w : World) :
  let g := game w in
  ai (actor (turn g) g) = true ->
  skip_next (actor (turn g) g) = false ->
  1 <= Shotgun.remaining (shotgun g) ->
  exists w1 target w2 shell w',
    use_item_flow (turn g) w = (Ok tt, w1)
    /\ aim (turn g) w1 = (Ok target, w2)
    /\ cursor_shell (game w2) = Some shell
    /\ turn_loop w = (Ok tt, w').
Proof.
  intros g Hai Hskip Hrem. subst g.
  set (who := turn (game w)) in *.
  destruct (succeeds_ai_maybe_use_item who w Hrem) as [[[] H1] Hl1].
  pose proof (af_ai_maybe_use_item who true who w Hai) as Hai1.
  destruct (ai_maybe_use_item who w) as [r w1] eqn:Hitems. cbn in H1, Hl1, Hai1. subst r.
  assert (Hflow : use_item_flow who w = (Ok tt, w1)).
  { unfold use_item_flow. by rewrite run_get, Hai. }
  destruct (succeeds_ai_choose_target who w1 Hl1) as [[target H2] Hl2].
  destruct (ai_choose_target who w1) as [r w2] eqn:Haim0. cbn in H2, Hl2. subst r.
  assert (Haim : aim who w1 = (Ok target, w2)).
  { unfold aim. by rewrite run_get, Hai1. }
  destruct (remaining_cursor_shell _ Hl2) as [shell Hshell].
  destruct (turn_loop_shot w w1 w2 target shell Hskip ltac:(lia) Hflow Haim Hshell)
    as (w3 & _ & _ & Hloop).
  by eexists w1, target, w2, shell, _.
Qed.

Lemma ai_turn_fires_loaded_witness :
  exists w1 target w2 shell w',
    use_item_flow Dealer w_dealer_steals = (Ok tt, w1)
    /\ aim Dealer w1 = (Ok target, w2)
    /\ cursor_shell (game w2) = Some shell
    /\ turn_loop w_dealer_steals = (Ok tt, w').
Proof.
  apply (ai_turn_fires_loaded w_dealer_steals); [reflexivity|reflexivity|vm_compute; discriminate].
Defined.

(** ** Adrenaline *)

Lemma name_pop_item iid a : name (snd (Actor.pop_item iid a)) = name a.
Proof. unfold Actor.pop_item. by destruct (decide _). Qed.

Lemma stolen_run (registry : ItemId -> Who -> Who -> M World unit)
    (iid : ItemId) (u : string) (user target : Who) (w : World) :
  (pop target iid ;;
   t <- name_of target ;;
   log (LogAdrenalineSteal u iid t) ;;
   registry iid user target) w
  = registry iid user target (set_game (stolen iid u target (game w)) w).
Proof.
  unfold pop, name_of, log. rewrite run_update, run_get, run_update.
  f_equal. unfold stolen, set_game. cbn [game stdin rng]. f_equal.
  destruct target; cbn; by rewrite name_pop_item.
Qed.

Lemma inventory_stolen iid u target g :
  inventory (actor target (stolen iid u target g))
  = inventory (snd (Actor.pop_item iid (actor target g))).
Proof. by destruct target. Qed.

Lemma Adrenaline_nothing_to_steal registry (user target : Who) (w : World) :
  inventory (actor target (game w)) = [] ->
  Adrenaline_use registry user target w
  = (Ok tt,
     set_game (set_transcript
                 (transcript (game w) ++ [LogAdrenalineNothing (name (actor user (game w)))])
                 (game w)) w).
Proof.
  intros Hinv. unfold Adrenaline_use, name_of. rewrite !run_get, Hinv. reflexivity.
Qed.

(** X26.  The AI steals one item: one occurrence leaves the target, and the
    effect runs for the user in that state. *)
Lemma Adrenaline_ai_steals_one registry (user target : Who) (w : World) :
  let u := name (actor user (game w)) in
  ai (actor user (game w)) = true ->
  inventory (actor target (game w)) <> [] ->
  exists steal_id,
    steal_id ∈ inventory (actor target (game w))
    /\ inventory (actor target (stolen steal_id u target (game w)))
       = remove_first steal_id (inventory (actor target (game w)))
    /\ (length (inventory (actor target (stolen steal_id u target (game w))))
        = length (inventory (actor target (game w))) - 1)%nat
    /\ Adrenaline_use registry user target w
       = registry steal_id user target
           {| game := stolen steal_id u target (game w);
              stdin := stdin w;
              rng := rng_tail (rng w) |}.
Proof.
  intros u Hai Hne. subst u.
  destruct (choice_spec _ (rng w) Hne) as (x & Hx & Hin).
  assert (Hinv : inventory (actor target (stolen x (name (actor user (game w))) target (game w)))
                 = remove_first x (inventory (actor target (game w)))).
  { rewrite inventory_stolen. unfold Actor.pop_item. by destruct (decide _). }
  exists x. split; [exact Hin|]. split; [exact Hinv|].
  split; [rewrite Hinv; by apply length_remove_first_in|].
  unfold Adrenaline_use, name_of. rewrite !run_get.
  rewrite bool_decide_eq_false_2 by done. rewrite run_get, Hai.
  unfold bind at 1. rewrite (run_with_rng _ _ _ x (rng_tail (rng w)) Hx).
  cbn [ret]. exact (stolen_run registry x _ user target (set_rng (rng_tail (rng w)) w)).
Qed.

Lemma Adrenaline_ai_steals_one_witness :
  exists steal_id,
    steal_id ∈ inventory (actor Player (game w_dealer_steals))
    /\ inventory (actor Player (stolen steal_id "Dealer" Player (game w_dealer_steals)))
       = remove_first steal_id (inventory (actor Player (game w_dealer_steals)))
    /\ (length (inventory (actor Player (stolen steal_id "Dealer" Player (game w_dealer_steals))))
        = length (inventory (actor Player (game w_dealer_steals))) - 1)%nat
    /\ Adrenaline_use ITEM_REGISTRY_use Dealer Player w_dealer_steals
       = ITEM_REGISTRY_use steal_id Dealer Player
           {| game := stolen steal_id "Dealer" Player (game w_dealer_steals);
              stdin := stdin w_dealer_steals;
              rng := rng_tail (rng w_dealer_steals) |}.
Proof.
  apply (Adrenaline_ai_steals_one ITEM_REGISTRY_use Dealer Player w_dealer_steals);
    [reflexivity|discriminate].
Defined.



Lemma prompt_choose_item_ai (who : Who) (w : World) :
  ai (actor who (game w)) = true -> prompt_choose_item who w = (Ok None, w).
Proof. intros H. unfold prompt_choose_item. by rewrite run_get, H. Qed.

(** At the table of the game the human's target is the dealer, for whom
    the prompt declines: the steal is cancelled. *)
Lemma Adrenaline_human_vs_ai registry (user target : Who) (w : World) :
  ai (actor user (game w)) = false ->
  ai (actor target (game w)) = true ->
  inventory (actor target (game w)) <> [] ->
  Adrenaline_use registry user target w
  = (Ok tt,
     set_game (set_transcript
                 (transcript (game w) ++ [LogAdrenalineCancel (name (actor user (game w)))])
                 (game w)) w).
Proof.
  intros Hu Ht Hne. unfold Adrenaline_use, name_of. rewrite !run_get.
  rewrite bool_decide_eq_false_2 by done. rewrite run_get, Hu.
  by rewrite (run_ok _ _ _ _ _ (prompt_choose_item_ai target w Ht)).
Qed.

(** Outside the games that a play reaches, with two humans at the table
    and an inventory that holds an item twice, the second pop shows: the
    human chooses the first cigarette, the prompt pops it, [Adrenaline.use]
    pops the other, and one cigarette is smoked. *)
Theorem human_steal_removes_two :
  exists w',
    ITEM_REGISTRY_use ADRENALINE Player Dealer steal_world = (Ok tt, w')
    /\ inventory (dealer (game steal_world)) = [CIGARETTE; CIGARETTE]
    /\ inventory (dealer (game w')) = []
    /\ inventory (player (game w')) = []
    /\ hp (player (game w')) = hp (player (game steal_world)) + 1
    /\ transcript (game w')
       = [LogAdrenalineSteal "You" CIGARETTE "Guest"; LogCigarette "You" 3 4].
Proof.
  eexists. split; [reflexivity|]. repeat split; reflexivity.
Qed.

(** * Further properties of the engine *)

(** ** The example games are reachable *)

Lemma start_world_reachable : reachable TurnStart (game start_world).
Proof. apply (reach_init Config_default [LNum 1] phone_rng start_world). reflexivity. Qed.

Lemma phone_world_reachable : reachable (ItemPhase Player) (game phone_world).
Proof.
  assert (H1 : reachable (ItemPhase Player) (game start_world)).
  { apply (reach_item_phase (game start_world) start_world_reachable);
      [reflexivity|reflexivity|vm_compute; discriminate]. }
  let r := eval vm_compute in (prompt_choose_item Player start_world) in
  lazymatch r with (_, ?w) => pose (w2 := w) end.
  assert (H2 : reachable (ItemPhase Player) (game w2)).
  { apply (reach_choose Player start_world BURNER_PHONE w2 H1). vm_compute. reflexivity. }
  apply (reach_use Player w2 BURNER_PHONE Dealer (Ok tt) phone_world H2).
  vm_compute. reflexivity.
Qed.

(** ** More on the shell sequence *)

Lemma count_cons s x l :
  count s (x :: l) = ((if decide (x = s) then 1 else 0) + count s l)%nat.
Proof.
  unfold count. destruct (decide (x = s)).
  - by rewrite filter_cons_True.
  - by rewrite filter_cons_False.
Qed.

Lemma count_live_blank (l : list Shell) : (count LIVE l + count BLANK l = length l)%nat.
Proof.
  induction l as [|x l IH]; [done|]. rewrite !count_cons.
  destruct x; repeat case_decide; try done; cbn [length]; lia.
Qed.

(** X1.  The two counts of [counts_remaining] add up to the number of shells
    from the cursor on, which is [remaining()] as long as the cursor is
    within the sequence. *)
Theorem counts_remaining_sum (sg : Shotgun) :
  let '(live, blank) := Shotgun.counts_remaining sg in
  (live + blank = length (shells sg) - index sg)%nat
  /\ ((index sg <= length (shells sg))%nat ->
      Z.of_nat (live + blank) = Shotgun.remaining sg).
Proof.
  unfold Shotgun.counts_remaining, Shotgun.remaining.
  rewrite count_live_blank, length_drop. split; [done|lia].
Qed.

(** X2.  Firing takes the shell at the cursor out of the remaining counts:
    one less of its kind, the other kind as before. *)
Theorem fire_counts (sg : Shotgun) (s : Shell) :
  shells sg !! index sg = Some s ->
  exists sg',
    Shotgun.fire sg = (Ok s, sg')
    /\ Shotgun.counts_remaining sg
       = match s with
         | LIVE => (S (fst (Shotgun.counts_remaining sg')), snd (Shotgun.counts_remaining sg'))
         | BLANK => (fst (Shotgun.counts_remaining sg'), S (snd (Shotgun.counts_remaining sg')))
         end.
Proof.
  intros Hs. eexists. split; [by apply fire_loaded|].
  unfold Shotgun.counts_remaining. cbn [set_index shells index fst snd].
  rewrite (drop_S _ _ _ Hs), !count_cons. destruct s; repeat case_decide; done.
Qed.

Lemma fire_counts_witness :
  exists sg',
    Shotgun.fire {| shells := [BLANK; LIVE; LIVE]; index := 1 |} = (Ok LIVE, sg')
    /\ Shotgun.counts_remaining {| shells := [BLANK; LIVE; LIVE]; index := 1 |}
       = (S (fst (Shotgun.counts_remaining sg')), snd (Shotgun.counts_remaining sg')).
Proof.
  apply (fire_counts {| shells := [BLANK; LIVE; LIVE]; index := 1 |} LIVE). reflexivity.
Defined.

Lemma flip_shell_involutive s : flip_shell (flip_shell s) = s.
Proof. by destruct s. Qed.

(** X3.  [invert_current] is its own inverse: inverting twice gives the
    shotgun back, whether or not a shell is left. *)
Theorem invert_current_twice (sg : Shotgun) :
  exists sg1,
    Shotgun.invert_current sg = (Ok tt, sg1)
    /\ Shotgun.invert_current sg1 = (Ok tt, sg).
Proof.
  destruct (shells sg !! index sg) as [s|] eqn:Hs.
  - eexists. split; [by apply invert_loaded|].
    pose proof (lookup_lt_Some _ _ _ Hs) as Hlt.
    erewrite invert_loaded; [|cbn; by apply list_lookup_insert_eq].
    cbn. rewrite list_insert_insert_eq, flip_shell_involutive, (list_insert_id _ _ _ Hs).
    by destruct sg.
  - exists sg. split; by apply invert_empty.
Qed.

(** X4.  Inverting moves one shell from its kind to the other in the
    remaining counts. *)
Theorem invert_current_counts (sg : Shotgun) (s : Shell) :
  shells sg !! index sg = Some s ->
  exists sg',
    Shotgun.invert_current sg = (Ok tt, sg')
    /\ let '(live, blank) := Shotgun.counts_remaining sg' in
       Shotgun.counts_remaining sg
       = match s with
         | LIVE => (S live, (blank - 1)%nat)
         | BLANK => ((live - 1)%nat, S blank)
         end.
Proof.
  intros Hs. eexists. split; [by apply invert_loaded|].
  pose proof (lookup_lt_Some _ _ _ Hs) as Hlt.
  unfold Shotgun.counts_remaining. cbn [set_shells shells index].
  rewrite (drop_S _ _ _ Hs).
  rewrite (drop_S _ (flip_shell s) (index sg)) by (by apply list_lookup_insert_eq).
  rewrite drop_insert_lt by lia. rewrite !count_cons.
  destruct s; cbn [flip_shell]; repeat case_decide; try done; f_equal; lia.
Qed.

Lemma invert_current_counts_witness :
  exists sg',
    Shotgun.invert_current {| shells := [BLANK; LIVE; LIVE]; index := 1 |} = (Ok tt, sg')
    /\ let '(live, blank) := Shotgun.counts_remaining sg' in
       Shotgun.counts_remaining {| shells := [BLANK; LIVE; LIVE]; index := 1 |}
       = (S live, (blank - 1)%nat).
Proof.
  apply (invert_current_counts {| shells := [BLANK; LIVE; LIVE]; index := 1 |} LIVE).
  reflexivity.
Defined.

(** ** More on the actors *)

Lemma remove_first_sublist x l : remove_first x l `sublist_of` l.
Proof.
  induction l as [|y l IH]; [done|]. cbn. destruct (decide (y = x)).
  - by apply sublist_cons.
  - by apply sublist_skip.
Qed.

Lemma remove_first_perm x l : x ∈ l -> l ≡ₚ x :: remove_first x l.
Proof.
  induction l as [|y l IH]; [by intros ?%elem_of_nil|].
  intros Hin. cbn. destruct (decide (y = x)) as [->|Hne]; [done|].
  apply elem_of_cons in Hin as [->|Hin]; [done|].
  rewrite (IH Hin) at 1. apply Permutation_swap.
Qed.

Lemma set_inventory_same a : set_inventory (inventory a) a = a.
Proof. by destruct a. Qed.

(** X5.  [pop_item] returns the item exactly when the actor holds it; then
    one occurrence has left the inventory and the rest is there in its
    order; an item that is not held leaves the actor as it is. *)
Theorem pop_item_spec (item_id : ItemId) (a : Actor) :
  (item_id ∈ inventory a ->
     exists a',
       Actor.pop_item item_id a = (Some item_id, a')
       /\ inventory a ≡ₚ item_id :: inventory a'
       /\ inventory a' `sublist_of` inventory a
       /\ set_inventory (inventory a) a' = a)
  /\ (item_id ∉ inventory a -> Actor.pop_item item_id a = (None, a)).
Proof.
  unfold Actor.pop_item. split; intros Hin; destruct (decide _); try done.
  eexists. split; [done|]. cbn.
  split; [by apply remove_first_perm|]. split; [apply remove_first_sublist|by destruct a].
Qed.

Lemma remove_first_snoc_absent x l : x ∉ l -> remove_first x (l ++ [x]) = l.
Proof.
  induction l as [|y l IH]; intros Hno; cbn.
  - by destruct (decide (x = x)).
  - destruct (decide (y = x)) as [->|]; [set_solver|]. f_equal. apply IH. set_solver.
Qed.

(** X6.  Taking an item and popping it again: the pop succeeds and the
    inventory holds the same items as before; if the item was not held
    before, the actor is exactly as before. *)
Theorem take_then_pop (item_id : ItemId) (a : Actor) :
  exists a',
    Actor.pop_item item_id (Actor.take_item item_id a) = (Some item_id, a')
    /\ inventory a' ≡ₚ inventory a
    /\ (item_id ∉ inventory a -> a' = a).
Proof.
  unfold Actor.pop_item, Actor.take_item. cbn [inventory set_inventory].
  destruct (decide _) as [_|Hno]; [|set_solver].
  eexists. split; [done|]. cbn. split.
  - apply (Permutation_cons_inv (a := item_id)). rewrite <- remove_first_perm by set_solver.
    by rewrite Permutation_app_comm.
  - intros Hno. rewrite remove_first_snoc_absent by done. by destruct a.
Qed.

(** ** More on the items and the steps of a turn *)

Lemma set_shotgun_same (w : World) :
  set_game (set_shotgun (shotgun (game w)) (game w)) w = w.
Proof. by destruct w as [[] ? ?]. Qed.

Lemma peek_loaded (sg : Shotgun) s :
  shells sg !! index sg = Some s -> Shotgun.peek_current sg = (Ok s, sg).
Proof. intros H. unfold Shotgun.peek_current. by rewrite H. Qed.

Lemma peek_empty (sg : Shotgun) :
  shells sg !! index sg = None -> Shotgun.peek_current sg = (Raise IndexError, sg).
Proof. intros H. unfold Shotgun.peek_current. by rewrite H. Qed.

(** X7.  The Magnifying Glass writes the shell at the cursor into the
    user's [current_known], logs it, and touches nothing else; on an empty
    gun it raises the [IndexError] of [peek_current] and the world is as
    before. *)
Theorem MagnifyingGlass_effect (w : World) (user target : Who) :
  let g := game w in
  match cursor_shell g with
  | Some s =>
      MagnifyingGlass_use user target w
      = (Ok tt,
         set_game
           (set_transcript
              (transcript g ++ [LogMagnifyingGlass (name (actor user g)) s])
              (upd_actor user
                 (fun a => set_knowledge (set_current_known (Some s) (knowledge a)) a) g))
           w)
  | None => MagnifyingGlass_use user target w = (Raise IndexError, w)
  end.
Proof.
  cbn zeta. unfold cursor_shell, MagnifyingGlass_use.
  destruct (shells _ !! _) as [s|] eqn:Hs.
  - rewrite (run_with_shotgun _ _ _ _ _ (peek_loaded _ _ Hs)), set_shotgun_same.
    by destruct user.
  - unfold with_shotgun. unfold bind at 1. by rewrite (peek_empty _ Hs), set_shotgun_same.
Qed.

(** X8.  Beer on an empty gun only logs.  With a shell at the cursor it
    moves the cursor one on, clears [current_known] of both actors and logs
    the ejected shell; the shells, HP, inventories and the turn are as
    before, and nothing is read or drawn. *)
Theorem Beer_effect (w : World) (user target : Who) :
  let g := game w in
  let sg := shotgun g in
  let clear := fun a => set_knowledge (set_current_known None (knowledge a)) a in
  (Shotgun.remaining sg = 0 ->
     Beer_use user target w
     = (Ok tt,
        set_game (set_transcript (transcript g ++ [LogBeerEmpty (name (actor user g))]) g) w))
  /\ (forall s, cursor_shell g = Some s ->
        Beer_use user target w
        = (Ok tt,
           set_game
             (set_transcript
                (transcript g ++ [LogBeer (name (actor user g)) s])
                (upd_actor (other user) clear
                   (upd_actor user clear
                      (set_shotgun {| shells := shells sg; index := S (index sg) |} g))))
             w)).
Proof.
  cbn zeta. unfold Beer_use, name_of. rewrite !run_get. split.
  - intros ->. reflexivity.
  - intros s Hs. pose proof (cursor_shell_remaining _ _ Hs) as Hrem.
    destruct (Z.eqb_spec (Shotgun.remaining (shotgun (game w))) 0); [lia|].
    rewrite (run_with_shotgun _ _ _ _ _ (fire_loaded _ _ Hs)). by destruct user.
Qed.

(** X9.  A turn step of an actor whose [skip_next] is set clears the flag,
    logs the skip and hands the turn to the opponent, and that is all: no
    item is used, no shot is fired, and an empty gun is not reloaded in
    this step. *)
Theorem skip_step (w : World) :
  let g := game w in
  let who := turn g in
  skip_next (actor who g) = true ->
  turn_loop w
  = (Ok tt,
     set_game
       (set_turn (other who)
          (set_transcript (transcript g ++ [LogSkip (name (actor who g))])
             (upd_actor who (set_skip_next false) g)))
       w).
Proof.
  cbn zeta. intros Hskip. unfold turn_loop. rewrite !run_get, Hskip.
  by destruct (turn (game w)).
Qed.

Lemma skip_step_witness :
  turn_loop w_cuffed
  = (Ok tt,
     set_game
       (set_turn Dealer
          (set_transcript [LogSkip "You"]
             (upd_actor Player (set_skip_next false) (game w_cuffed))))
       w_cuffed).
Proof. apply (skip_step w_cuffed). reflexivity. Defined.

(** X10.  A shot on an empty gun raises the error of [fire] before anything
    is written: no knowledge is cleared, no damage is dealt, nothing is
    logged. *)
Theorem resolve_shot_empty (w : World) (shooter target : Who) :
  cursor_shell (game w) = None ->
  resolve_shot shooter target w = (Raise RuntimeError, w).
Proof.
  intros Hs. unfold resolve_shot, with_shotgun. unfold bind at 1.
  rewrite fire_empty by (by apply lookup_ge_None). by rewrite set_shotgun_same.
Qed.

Lemma resolve_shot_empty_witness :
  resolve_shot Dealer Player w_reload = (Raise RuntimeError, w_reload).
Proof. apply (resolve_shot_empty w_reload Dealer Player). reflexivity. Defined.

(** X11.  The Hand Saw does not add up: whatever [dmg_mult] was, after the
    saw a live shot takes exactly 2 HP off the target, and the shooter's
    [dmg_mult] is 1 again. *)
Theorem HandSaw_then_live_shot (w : World) (user saw_target target : Who) :
  cursor_shell (game w) = Some LIVE ->
  exists w',
    (HandSaw_use user saw_target ;; resolve_shot user target) w = (Ok false, w')
    /\ hp (actor target (game w')) = hp (actor target (game w)) - 2
    /\ dmg_mult (actor user (game w')) = 1.
Proof.
  intros Hs.
  assert (Hsaw : exists w1, HandSaw_use user saw_target w = (Ok tt, w1)
                   /\ shotgun (game w1) = shotgun (game w)
                   /\ dmg_mult (actor user (game w1)) = 2
                   /\ forall a, hp (actor a (game w1)) = hp (actor a (game w))).
  { eexists. split; [reflexivity|]. destruct user; repeat split; by intros []. }
  destruct Hsaw as (w1 & Hsaw & Hsg & Hdmg & Hhp).
  rewrite (run_ok _ _ _ _ _ Hsaw). unfold resolve_shot.
  erewrite run_with_shotgun; [|apply fire_loaded; rewrite Hsg; exact Hs].
  rewrite <- (Hhp target).
  destruct user, target; eexists; (split; [reflexivity|]); cbn in *; rewrite ?Hdmg; done.
Qed.

Lemma HandSaw_then_live_shot_witness :
  exists w',
    (HandSaw_use Player Dealer ;; resolve_shot Player Dealer) w_sawed = (Ok false, w')
    /\ hp (actor Dealer (game w')) = 4 - 2
    /\ dmg_mult (actor Player (game w')) = 1.
Proof. apply (HandSaw_then_live_shot w_sawed Player Dealer Dealer). reflexivity. Defined.

(** ** The start of a game *)

(** X12.  Under a configuration that can be dealt, [Game.__init__] returns a
    game: both actors at their maximal HP with nothing known, no skip and
    [dmg_mult] 1, the dealer the only AI, the turn with the player, round
    1, an empty transcript, a freshly loaded gun within the configured
    size, and for each actor an inventory dealt from the catalog; the input
    is untouched. *)
Theorem Game_init_spec (c : Config) (inp : list Line) (r : Rng) :
  valid_config c ->
  exists sg inv_p inv_d r',
    Game_init c inp r
    = Ok {| game :=
              {| cfg := c;
                 player := {| name := "You"; max_hp := player_max_hp c;
                              hp := player_max_hp c; inventory := inv_p;
                              skip_next := false; dmg_mult := 1; ai := false;
                              knowledge := Knowledge_new |};
                 dealer := {| name := "Dealer"; max_hp := dealer_max_hp c;
                              hp := dealer_max_hp c; inventory := inv_d;
                              skip_next := false; dmg_mult := 1; ai := true;
                              knowledge := Knowledge_new |};
                 turn := Player;
                 shotgun := sg;
                 round_no := 1;
                 transcript := [] |};
            stdin := inp;
            rng := r' |}
    /\ min_shells c <= Z.of_nat (length (shells sg)) <= max_shells c
    /\ index sg = 0%nat
    /\ dealt c inv_p
    /\ dealt c inv_d.
Proof.
  intros (Hshells & Hitems & Hcat).
  destruct (load_shape _ _ r Hshells) as (sg & r1 & n & lc & Hload & Hn & Hlc & Hperm & Hidx).
  unfold Game_init. rewrite Hload. unfold deal_items.
  match goal with |- context [bind (deal_items_to Player) _ ?w0] =>
    destruct (deal_items_to_spec Player w0) as (inv_p & r2 & Hp & Hdp); [exact Hitems|exact Hcat|]
  end.
  unfold bind at 1. rewrite Hp.
  match goal with |- context [deal_items_to Dealer ?w0] =>
    destruct (deal_items_to_spec Dealer w0) as (inv_d & r3 & Hd & Hdd); [exact Hitems|exact Hcat|]
  end.
  rewrite Hd. exists sg, inv_p, inv_d, r3.
  split; [reflexivity|]. split; [|split; [exact Hidx|split; assumption]].
  rewrite (Permutation_length Hperm), length_app, !length_replicate. lia.
Qed.

Lemma Game_init_spec_witness :
  exists sg inv_p inv_d r',
    Game_init Config_default [LSelf] beer_rng
    = Ok {| game :=
              {| cfg := Config_default;
                 player := {| name := "You"; max_hp := 4; hp := 4; inventory := inv_p;
                              skip_next := false; dmg_mult := 1; ai := false;
                              knowledge := Knowledge_new |};
                 dealer := {| name := "Dealer"; max_hp := 4; hp := 4; inventory := inv_d;
                              skip_next := false; dmg_mult := 1; ai := true;
                              knowledge := Knowledge_new |};
                 turn := Player;
                 shotgun := sg;
                 round_no := 1;
                 transcript := [] |};
            stdin := [LSelf];
            rng := r' |}
    /\ 2 <= Z.of_nat (length (shells sg)) <= 8
    /\ index sg = 0%nat
    /\ dealt Config_default inv_p
    /\ dealt Config_default inv_d.
Proof.
  apply (Game_init_spec Config_default [LSelf] beer_rng). unfold valid_config. cbn. lia.
Defined.

(** X13.  With fewer than two shells allowed no game is made: the
    constructor raises [ValueError], from the first [randint] when the
    range is empty and from the draw of the live count otherwise. *)
Theorem Game_init_too_few_shells (c : Config) (inp : list Line) (r : Rng) :
  max_shells c < 2 -> Game_init c inp r = Raise ValueError.
Proof.
  intros Hmax. unfold Game_init, Shotgun.load.
  destruct (Z.lt_ge_cases (max_shells c) (min_shells c)) as [Hlt|Hge].
  - unfold randint at 1. destruct (Z.ltb_spec (max_shells c) (min_shells c)); [done|lia].
  - destruct (randint_range _ _ r Hge) as (n & Hn & Hnr).
    unfold bind at 1. rewrite Hn. unfold bind at 1, randint at 1.
    destruct (Z.ltb_spec (n - 1) 1); [done|lia].
Qed.

Lemma Game_init_too_few_shells_witness :
  Game_init {| min_shells := 1; max_shells := 1; player_max_hp := 4; dealer_max_hp := 4;
               items_per_round := (2, 4) |} [] (rng_of []) = Raise ValueError.
Proof. apply Game_init_too_few_shells. cbn. lia. Defined.

(** ** The policy of the AI *)

Lemma p_live_at_least_half (sg : Shotgun) :
  let '(live, blank) := Shotgun.counts_remaining sg in
  Qle_bool (1 # 2) (p_live_of sg) = true <-> (1 <= live /\ blank <= live)%nat.
Proof.
  unfold p_live_of. destruct (Shotgun.counts_remaining sg) as [live blank].
  rewrite Qle_bool_iff. unfold Qle. cbn [Qnum Qden].
  rewrite Z2Pos.id by lia. lia.
Qed.

(** X14.  The target of the AI: the player if it knows the shell to be live,
    itself if it knows it to be blank; knowing nothing, the player exactly
    when at least one live shell is left and the blanks left are not more
    than the lives.  The choice changes nothing. *)
Theorem ai_choose_target_rule (me : Who) (w : World) :
  let g := game w in
  let '(live, blank) := Shotgun.counts_remaining (shotgun g) in
  ai_choose_target me w
  = (Ok match knows me g with
        | Some LIVE => Player
        | Some BLANK => me
        | None => if decide (1 <= live /\ blank <= live)%nat then Player else me
        end, w).
Proof.
  cbn zeta. pose proof (p_live_at_least_half (shotgun (game w))) as Hhalf.
  destruct (Shotgun.counts_remaining _) as [live blank].
  unfold ai_choose_target, knows. rewrite run_get.
  destruct (current_known _) as [[]|]; try reflexivity.
  rewrite run_get. cbn [ret]. do 2 f_equal.
  destruct (Qle_bool _ _); destruct (decide _) as [Hd|Hd]; try done.
  - exfalso. apply Hd. by apply Hhalf.
  - by apply Hhalf in Hd.
Qed.

(** ** Invariants of the engine *)

Lemma preserves_bind_rng {A B} (I : Game -> Prop) (m : M Rng A) (Q : A -> Prop)
    (f : A -> M World B) :
  (forall r a r', m r = (Ok a, r') -> Q a) ->
  (forall a, Q a -> preserves I (f a)) ->
  preserves I (a <- with_rng m ;; f a).
Proof.
  intros Hm Hf w H. unfold bind, with_rng.
  destruct (m (rng w)) as [[a| |] r'] eqn:E; [|done..].
  apply Hf; [by eapply Hm|done].
Qed.

Lemma draw_without_replacement_ok {A} (k : nat) : forall (pool l : list A) r r',
  draw_without_replacement k pool r = (Ok l, r') -> l ⊆+ pool.
Proof.
  induction k as [|k IH]; intros pool l r r'; cbn [draw_without_replacement].
  - intros [= <- _]. apply submseteq_nil_l.
  - unfold bind at 1. cbn [randbelow].
    destruct (pool !! _) as [x|] eqn:Hx; [|done].
    unfold bind at 1.
    destruct (draw_without_replacement k _ _) as [[rest| |] r1] eqn:Hd; [|done..].
    intros [= <- _]. rewrite (delete_Permutation _ _ _ Hx).
    apply submseteq_skip. by eapply IH.
Qed.

Lemma sample_ok {A} (pool l : list A) (k : Z) r r' :
  sample pool k r = (Ok l, r') -> l ⊆+ pool.
Proof.
  unfold sample. destruct (_ || _); [done|]. apply draw_without_replacement_ok.
Qed.

(** From the calls that an invariant is concerned with to the whole
    engine. *)
Section EngineInvariant.
Context (I : Game -> Prop).
Hypothesis I_log : forall msg, preserves I (log msg).
Hypothesis I_pop : forall a iid, preserves I (pop a iid).
Hypothesis I_item : forall iid user target,
  iid <> ADRENALINE -> preserves I (item_use 0 iid user target).

Ltac ei_leaf :=
  idtac;
  lazymatch goal with
  | |- preserves _ (log _) => apply I_log
  | |- preserves _ (pop _ _) => apply I_pop
  end.

Lemma ei_prompt_choose_item a : preserves I (prompt_choose_item a).
Proof. unfold prompt_choose_item. frame_with ei_leaf. Qed.

Lemma ei_item_use fuel : forall iid user target,
  preserves I (item_use fuel iid user target).
Proof.
  induction fuel as [|fuel IH]; intros iid user target;
    (destruct (decide (iid = ADRENALINE)) as [->|Hne];
       [|replace (item_use _ iid user target) with (item_use 0 iid user target)
           by (by destruct iid); by apply I_item]).
  - apply preserves_out_of_fuel.
  - cbn [item_use]. unfold Adrenaline_use.
    frame_with ltac:(first [ ei_leaf
                           | lazymatch goal with
                             | |- preserves _ (prompt_choose_item _) =>
                                 apply ei_prompt_choose_item
                             | |- preserves _ (item_use _ _ _ _) => apply IH
                             end ]).
Qed.

Lemma ei_ITEM_REGISTRY_use iid user target :
  preserves I (ITEM_REGISTRY_use iid user target).
Proof. intros w. apply ei_item_use. Qed.

Lemma ei_use_item_loop fuel who : preserves I (use_item_loop fuel who).
Proof.
  induction fuel as [|fuel IH]; cbn [use_item_loop]; [apply preserves_out_of_fuel|].
  frame_with ltac:(idtac; lazymatch goal with
                   | |- preserves _ (prompt_choose_item _) => apply ei_prompt_choose_item
                   | |- preserves _ (ITEM_REGISTRY_use _ _ _) => apply ei_ITEM_REGISTRY_use
                   | |- preserves _ (use_item_loop _ _) => apply IH
                   end).
Qed.

Lemma ei_ai_maybe_use_item who : preserves I (ai_maybe_use_item who).
Proof.
  unfold ai_maybe_use_item, chance.
  frame_with ltac:(first [ ei_leaf
                         | lazymatch goal with
                           | |- preserves _ (ITEM_REGISTRY_use _ _ _) =>
                               apply ei_ITEM_REGISTRY_use
                           end ]).
Qed.

Lemma ei_use_item_flow who : preserves I (use_item_flow who).
Proof.
  unfold use_item_flow.
  frame_with ltac:(idtac; lazymatch goal with
                   | |- preserves _ (ai_maybe_use_item _) => apply ei_ai_maybe_use_item
                   | |- preserves _ (use_item_loop _ _) => apply ei_use_item_loop
                   end).
Qed.

Hypothesis I_shot : forall shooter target, preserves I (resolve_shot shooter target).
Hypothesis I_turn : forall t, preserves I (update (set_turn t)).
Hypothesis I_unskip : forall who, preserves I (update (upd_actor who (set_skip_next false))).
Hypothesis I_round : preserves I (update (fun g => set_round_no (round_no g + 1) g)).
Hypothesis I_gun : forall sg, preserves I (update (set_shotgun sg)).
Hypothesis I_deal : forall who, preserves I (deal_items_to who).

Lemma ei_turn_loop : preserves I turn_loop.
Proof.
  unfold turn_loop, deal_items.
  frame_with ltac:(first [ ei_leaf
                         | lazymatch goal with
                           | |- preserves _ (use_item_flow _) => apply ei_use_item_flow
                           | |- preserves _ (aim _) => apply preserves_aim
                           | |- preserves _ (resolve_shot _ _) => apply I_shot
                           | |- preserves _ (update (set_turn _)) => apply I_turn
                           | |- preserves _ (update (upd_actor _ (set_skip_next false))) =>
                               apply I_unskip
                           | |- preserves _ (update (set_shotgun _)) => apply I_gun
                           | |- preserves _ (update (fun g => set_round_no _ g)) =>
                               apply I_round
                           | |- preserves _ (deal_items_to _) => apply I_deal
                           end ]).
Qed.

Lemma ei_play n : preserves I (play n).
Proof.
  induction n as [|n IH]; cbn [play]; [apply preserves_ret|].
  frame_with ltac:(idtac; lazymatch goal with
                   | |- preserves _ turn_loop => apply ei_turn_loop
                   | |- preserves _ (play _) => apply IH
                   end).
Qed.

Hypothesis I_init : forall c sg, I (Game_undealt c sg).

Lemma ei_Game_init c inp r w : Game_init c inp r = Ok w -> I (game w).
Proof.
  unfold Game_init. destruct (Shotgun.load _ _ r) as [[sg| |] r']; try discriminate.
  fold (Game_undealt c sg).
  match goal with |- context [deal_items ?w0] =>
    assert (H : I (game (snd (deal_items w0))))
      by (apply (preserves_bind I); [apply I_deal|intros _; apply I_deal|apply I_init]);
    destruct (deal_items w0) as [[[]| |] w1]
  end; intros Heq; simplify_eq. exact H.
Qed.

Lemma ei_reachable ph g : reachable ph g -> I g.
Proof.
  induction 1 as [c inp r w Hinit
                 | w w' _ IH _ Hturn
                 | w e w' _ IH _ Hturn
                 | g _ IH _ _ _
                 | who w iid w' _ IH Hprompt
                 | who w iid r w' _ IH Hpop
                 | who w iid target r w' _ IH Huse].
  - by eapply ei_Game_init.
  - pose proof (ei_turn_loop w IH) as H. by rewrite Hturn in H.
  - pose proof (ei_turn_loop w IH) as H. by rewrite Hturn in H.
  - exact IH.
  - pose proof (ei_prompt_choose_item who w IH) as H. by rewrite Hprompt in H.
  - pose proof (I_pop who iid w IH) as H. by rewrite Hpop in H.
  - pose proof (ei_ITEM_REGISTRY_use iid who target w IH) as H. by rewrite Huse in H.
Qed.

End EngineInvariant.

(** Invariants that speak of each actor by itself: they hold in every
    reachable game once they hold of a new actor and every write of the
    source to an actor keeps them. *)
Section ActorLocal.
Context (P : Who -> Actor -> Prop).
Hypothesis P_known : forall who x c,
  P who x -> P who (set_knowledge (set_current_known c (knowledge x)) x).
Hypothesis P_positions : forall who x m,
  P who x -> P who (set_knowledge (set_known_positions m (knowledge x)) x).
Hypothesis P_fresh : forall who x, P who x -> P who (set_knowledge Knowledge_new x).
Hypothesis P_pop : forall who x iid, P who x -> P who (snd (Actor.pop_item iid x)).
Hypothesis P_skip : forall who x b, P who x -> P who (set_skip_next b x).
Hypothesis P_dmg : forall who x v, 1 <= v <= 2 -> P who x -> P who (set_dmg_mult v x).
Hypothesis P_heal : forall who x, P who x -> P who (Actor.heal 1 x).
Hypothesis P_hurt : forall who who' x y,
  P who x -> P who' y -> P who (Actor.hurt (dmg_mult y) x).
Hypothesis P_clear : forall who x, P who x -> P who (set_inventory [] x).
Hypothesis P_deal : forall who x drawn,
  drawn ⊆+ all_items -> inventory x = [] -> P who x ->
  P who (set_inventory (inventory x ++ drawn) x).
Hypothesis P_init : forall who n is_ai mhp,
  is_ai = bool_decide (who = Dealer) -> P who (Actor_new n is_ai mhp mhp).

Lemma al_upd_actor a f :
  (forall x, P a x -> P a (f x)) -> preserves (each_actor P) (update (upd_actor a f)).
Proof.
  intros Hf. apply preserves_update. intros g H who.
  destruct a, who; cbn; first [apply Hf; exact (H _)|exact (H _)].
Qed.

Lemma al_game_field (f : Game -> Game) :
  (forall g who, actor who (f g) = actor who g) -> preserves (each_actor P) (update f).
Proof. intros Hf. apply preserves_update. intros g H who. rewrite Hf. apply H. Qed.

Lemma al_with_shotgun {A} (m : M Shotgun A) : preserves (each_actor P) (with_shotgun m).
Proof.
  intros w H who. unfold with_shotgun. destruct (m _). specialize (H who). by destruct who.
Qed.

Lemma al_log msg : preserves (each_actor P) (log msg).
Proof. apply al_game_field. by intros g []. Qed.

Lemma al_pop a iid : preserves (each_actor P) (pop a iid).
Proof. apply al_upd_actor. intros x. apply P_pop. Qed.

Ltac al_leaf :=
  idtac;
  lazymatch goal with
  | |- preserves _ (with_shotgun _) => apply al_with_shotgun
  | |- preserves _ (log _) => apply al_log
  | |- preserves _ (pop _ _) => apply al_pop
  | |- preserves _ (set_known _ _) => apply al_upd_actor; intros ?; apply P_known
  | |- preserves _ (update (upd_actor _ (set_skip_next _))) =>
      apply al_upd_actor; intros ?; apply P_skip
  | |- preserves _ (update (upd_actor _ (set_dmg_mult _))) =>
      apply al_upd_actor; intros ?; apply P_dmg; lia
  | |- preserves _ (update (upd_actor _ (Actor.heal 1))) =>
      apply al_upd_actor; intros ?; apply P_heal
  | |- preserves _ (update (upd_actor _ (set_inventory []))) =>
      apply al_upd_actor; intros ?; apply P_clear
  | |- preserves _ (update (upd_actor _ (set_knowledge Knowledge_new))) =>
      apply al_upd_actor; intros ?; apply P_fresh
  | |- preserves _ (update (upd_actor _ (fun a => set_knowledge (set_known_positions _ _) a))) =>
      apply al_upd_actor; intros ?; apply P_positions
  end.

Lemma al_item iid user target :
  iid <> ADRENALINE -> preserves (each_actor P) (item_use 0 iid user target).
Proof.
  intros Hne. destruct iid; try done; cbn [item_use];
    unfold MagnifyingGlass_use, Beer_use, Handcuffs_use, HandSaw_use, Inverter_use,
      BurnerPhone_use, Cigarette_use;
    frame_with al_leaf.
Qed.

Lemma al_hurt shooter target {B} (k : Z -> M World B) :
  (forall dmg, preserves (each_actor P) (k dmg)) ->
  preserves (each_actor P)
    (dmg <- get (fun g => dmg_mult (actor shooter g)) ;;
     update (upd_actor target (Actor.hurt dmg)) ;; k dmg).
Proof.
  intros Hk w H. rewrite run_get, run_update. apply Hk. cbn [game set_game].
  intros who. pose proof (H shooter) as Hs. pose proof (H target) as Ht.
  destruct target, who; cbn; first [by eapply P_hurt|exact (H _)].
Qed.

Lemma al_resolve_shot shooter target : preserves (each_actor P) (resolve_shot shooter target).
Proof.
  unfold resolve_shot.
  frame_with ltac:(first [ al_leaf
                         | lazymatch goal with
                           | |- preserves _ (bind (get (fun g => dmg_mult _)) _) =>
                               apply al_hurt; intros ?
                           end ]).
Qed.

Lemma al_deal_items_to who : preserves (each_actor P) (deal_items_to who).
Proof.
  intros w H. unfold deal_items_to. rewrite run_update, run_get.
  set (w1 := set_game (upd_actor who (set_inventory []) (game w)) w).
  assert (H1 : each_actor P (game w1)).
  { apply (al_upd_actor who (set_inventory [])); [|exact H]. intros x. apply P_clear. }
  assert (Hinv : inventory (actor who (game w1)) = []) by (by destruct who).
  unfold bind at 1, with_rng at 1.
  destruct (randint _ _ (rng w1)) as [[k| |] r1]; [|exact H1..].
  unfold bind at 1, with_rng at 1. cbn [rng set_rng].
  destruct (sample all_items k r1) as [[drawn| |] r2] eqn:Hs; [|exact H1..].
  apply sample_ok in Hs. rewrite run_update.
  apply (al_upd_actor who (set_knowledge Knowledge_new)); [intros x; apply P_fresh|].
  cbn [game set_game set_rng]. intros who'. specialize (H1 who').
  destruct who, who'; first [exact H1|apply P_deal; [exact Hs|reflexivity|exact H1]].
Qed.

Lemma al_reachable ph g : reachable ph g -> each_actor P g.
Proof.
  apply (ei_reachable (each_actor P)).
  - apply al_log.
  - apply al_pop.
  - apply al_item.
  - apply al_resolve_shot.
  - intros t. apply al_game_field. by intros g0 [].
  - intros who. al_leaf.
  - apply al_game_field. by intros g0 [].
  - intros sg. apply al_game_field. by intros g0 [].
  - apply al_deal_items_to.
  - intros c sg []; by apply P_init.
Qed.

Lemma al_turn_loop : preserves (each_actor P) turn_loop.
Proof.
  apply (ei_turn_loop (each_actor P)).
  - apply al_log.
  - apply al_pop.
  - apply al_item.
  - apply al_resolve_shot.
  - intros t. apply al_game_field. by intros g0 [].
  - intros who. al_leaf.
  - apply al_game_field. by intros g0 [].
  - intros sg. apply al_game_field. by intros g0 [].
  - apply al_deal_items_to.
Qed.

Lemma al_play n : preserves (each_actor P) (play n).
Proof.
  induction n as [|n IH]; cbn [play]; [apply preserves_ret|].
  frame_with ltac:(idtac; lazymatch goal with
                   | |- preserves _ turn_loop => apply al_turn_loop
                   | |- preserves _ (play _) => apply IH
                   end).
Qed.

End ActorLocal.

(** ** Invariants of the actors *)

Lemma reachable_ai (ph : Phase) (g : Game) (who : Who) :
  reachable ph g -> ai (actor who g) = bool_decide (who = Dealer).
Proof.
  intros Hr.
  refine (al_reachable (fun who x => ai x = bool_decide (who = Dealer))
            _ _ _ _ _ _ _ _ _ _ _ ph g Hr who);
    try (intros; cbn; done).
  intros ? x iid Hx. by rewrite ai_pop_item.
Qed.

(** X15.  In every reachable game the player is the human and the dealer is
    the AI. *)
Theorem reachable_ai_flags (ph : Phase) (g : Game) :
  reachable ph g -> ai (player g) = false /\ ai (dealer g) = true.
Proof.
  intros Hr. split; [exact (reachable_ai ph g Player Hr)|exact (reachable_ai ph g Dealer Hr)].
Qed.

Lemma reachable_ai_flags_witness :
  ai (player (game start_world)) = false /\ ai (dealer (game start_world)) = true.
Proof. exact (reachable_ai_flags TurnStart (game start_world) start_world_reachable). Defined.

(** X16.  In every reachable game the player's Adrenaline steals nothing:
    against a dealer without items it logs that there is nothing to steal,
    and otherwise the prompt declines for the dealer, who is the AI, and
    the steal is cancelled.  Either way only the transcript grows. *)
Theorem player_never_steals (ph : Phase) (w : World)
    (registry : ItemId -> Who -> Who -> M World unit) :
  let g := game w in
  reachable ph g ->
  Adrenaline_use registry Player Dealer w
  = (Ok tt,
     set_game
       (set_transcript
          (transcript g
           ++ [if bool_decide (inventory (dealer g) = [])
               then LogAdrenalineNothing (name (player g))
               else LogAdrenalineCancel (name (player g))]) g) w).
Proof.
  cbn zeta. intros Hr. case_bool_decide as Hinv.
  - by apply (Adrenaline_nothing_to_steal registry Player Dealer).
  - apply (Adrenaline_human_vs_ai registry Player Dealer); [|
      |exact Hinv].
    + exact (reachable_ai ph _ Player Hr).
    + exact (reachable_ai ph _ Dealer Hr).
Qed.

Lemma player_never_steals_witness :
  Adrenaline_use ITEM_REGISTRY_use Player Dealer start_world
  = (Ok tt,
     set_game
       (set_transcript
          (transcript (game start_world)
           ++ [if bool_decide (inventory (dealer (game start_world)) = [])
               then LogAdrenalineNothing (name (player (game start_world)))
               else LogAdrenalineCancel (name (player (game start_world)))])
          (game start_world)) start_world).
Proof.
  exact (player_never_steals TurnStart start_world ITEM_REGISTRY_use start_world_reachable).
Defined.

(** X17.  In every reachable game an actor's HP is at most their maximum,
    and their [dmg_mult] is 1 or 2. *)
Theorem reachable_hp_bounds (ph : Phase) (g : Game) (who : Who) :
  reachable ph g ->
  hp (actor who g) <= max_hp (actor who g)
  /\ (dmg_mult (actor who g) = 1 \/ dmg_mult (actor who g) = 2).
Proof.
  intros Hr.
  pose proof (al_reachable (fun _ x => hp x <= max_hp x /\ 1 <= dmg_mult x <= 2)) as H.
  assert (hp (actor who g) <= max_hp (actor who g) /\ 1 <= dmg_mult (actor who g) <= 2)
    as [? ?]; [|split; [done|lia]].
  refine (H _ _ _ _ _ _ _ _ _ _ _ ph g Hr who);
    try (intros; cbn in *; lia);
    try (intros ? x iid Hx; unfold Actor.pop_item; by destruct (decide _)).
Qed.

Lemma reachable_hp_bounds_witness :
  hp (actor Dealer (game start_world)) <= max_hp (actor Dealer (game start_world))
  /\ (dmg_mult (actor Dealer (game start_world)) = 1
      \/ dmg_mult (actor Dealer (game start_world)) = 2).
Proof.
  exact (reachable_hp_bounds TurnStart (game start_world) Dealer start_world_reachable).
Defined.

(** X18.  A play never changes who the actors are: name, maximal HP and
    the [ai] flag of each actor are after any number of turns what they
    were before. *)
Theorem play_keeps_identity (n : nat) (w : World) (who : Who) :
  let a := actor who (game w) in
  let a' := actor who (game (snd (play n w))) in
  name a' = name a /\ max_hp a' = max_hp a /\ ai a' = ai a.
Proof.
  cbn zeta.
  refine (al_play (fun who x => name x = name (actor who (game w))
                                /\ max_hp x = max_hp (actor who (game w))
                                /\ ai x = ai (actor who (game w)))
            _ _ _ _ _ _ _ _ _ _ n w _ who);
    try (intros; cbn in *; done).
  intros ? x iid Hx. unfold Actor.pop_item. by destruct (decide _).
Qed.

(** X19.  In every reachable game no actor holds an item twice. *)
Theorem reachable_inventory_NoDup (ph : Phase) (g : Game) (who : Who) :
  reachable ph g -> NoDup (inventory (actor who g)).
Proof.
  intros Hr.
  refine (al_reachable (fun _ x => NoDup (inventory x)) _ _ _ _ _ _ _ _ _ _ _ ph g Hr who);
    try (intros; cbn in *; done).
  - intros _ x iid Hx. unfold Actor.pop_item. destruct (decide _); [|done]. cbn.
    exact (sublist_NoDup _ _ Hx (remove_first_sublist _ _)).
  - intros; cbn. apply NoDup_nil_2.
  - intros _ x drawn Hsub Hinv _. cbn. rewrite Hinv. cbn.
    destruct (submseteq_Permutation _ _ Hsub) as [rest Hperm].
    pose proof NoDup_all_items as Hnd. rewrite Hperm in Hnd.
    by apply NoDup_app in Hnd as [? _].
  - intros; cbn. apply NoDup_nil_2.
Qed.

Lemma reachable_inventory_NoDup_witness :
  NoDup (inventory (actor Player (game start_world))).
Proof.
  exact (reachable_inventory_NoDup TurnStart (game start_world) Player start_world_reachable).
Defined.

(** ** What a play leaves alone *)

(** Invariants that speak of the configuration, the round counter and the
    transcript only. *)
Section Ledger.
Context (I : Game -> Prop).
Hypothesis I_actor : forall g who a, I g -> I (set_actor who a g).
Hypothesis I_shotgun : forall g sg, I g -> I (set_shotgun sg g).
Hypothesis I_turn : forall g t, I g -> I (set_turn t g).
Hypothesis I_log : forall g msg, I g -> I (set_transcript (transcript g ++ [msg]) g).
Hypothesis I_round : forall g, I g -> I (set_round_no (round_no g + 1) g).

Ltac lg_leaf :=
  idtac;
  lazymatch goal with
  | |- preserves _ (with_shotgun _) =>
      let w := fresh in let H := fresh in
      intros w H; unfold with_shotgun; destruct (_ (shotgun (game w))); by apply I_shotgun
  | |- preserves _ (log _) => apply preserves_update; intros ? ?; by apply I_log
  | |- preserves _ (pop _ _) => apply preserves_update; intros ? ?; by apply I_actor
  | |- preserves _ (set_known _ _) => apply preserves_update; intros ? ?; by apply I_actor
  | |- preserves _ (update (upd_actor _ _)) =>
      apply preserves_update; intros ? ?; by apply I_actor
  end.

Lemma lg_item iid user target :
  iid <> ADRENALINE -> preserves I (item_use 0 iid user target).
Proof.
  intros Hne. destruct iid; try done; cbn [item_use];
    unfold MagnifyingGlass_use, Beer_use, Handcuffs_use, HandSaw_use, Inverter_use,
      BurnerPhone_use, Cigarette_use;
    frame_with lg_leaf.
Qed.

Lemma lg_resolve_shot shooter target : preserves I (resolve_shot shooter target).
Proof. unfold resolve_shot. frame_with lg_leaf. Qed.

Lemma lg_deal_items_to who : preserves I (deal_items_to who).
Proof. unfold deal_items_to. frame_with lg_leaf. Qed.

Lemma lg_turn_loop : preserves I turn_loop.
Proof.
  apply (ei_turn_loop I).
  - intros msg. lg_leaf.
  - intros a iid. lg_leaf.
  - apply lg_item.
  - apply lg_resolve_shot.
  - intros t. apply preserves_update. intros ? ?. by apply I_turn.
  - intros who. lg_leaf.
  - apply preserves_update. intros ? ?. by apply I_round.
  - intros sg. apply preserves_update. intros ? ?. by apply I_shotgun.
  - apply lg_deal_items_to.
Qed.

Lemma lg_play n : preserves I (play n).
Proof.
  induction n as [|n IH]; cbn [play]; [apply preserves_ret|].
  frame_with ltac:(idtac; lazymatch goal with
                   | |- preserves _ turn_loop => apply lg_turn_loop
                   | |- preserves _ (play _) => apply IH
                   end).
Qed.

End Ledger.

(** X20.  The transcript is append-only and the configuration is fixed: after
    any number of turns the old transcript is a prefix of the new one, the
    configuration is the same, and the round counter has not gone down. *)
Theorem play_ledger (n : nat) (w : World) :
  let g := game w in
  let g' := game (snd (play n w)) in
  transcript g `prefix_of` transcript g'
  /\ cfg g' = cfg g
  /\ round_no g <= round_no g'.
Proof.
  cbn zeta.
  apply (lg_play (fun g' => transcript (game w) `prefix_of` transcript g'
                            /\ cfg g' = cfg (game w)
                            /\ round_no (game w) <= round_no g')).
  - intros g [] a H; exact H.
  - intros g sg H; exact H.
  - intros g t H; exact H.
  - intros g msg (Ht & Hc & Hr). split; [by apply prefix_app_r|done].
  - intros g (Ht & Hc & Hr). cbn. split; [done|]. split; [done|lia].
  - done.
Qed.

(** X21.  The item phase, the aim and the shot leave the configuration, the
    round counter and the turn pointer alone: the turn is handed over by
    [turn_loop] only. *)
Theorem item_phase_frame (who shooter target : Who) (w : World) :
  let same := fun (g g' : Game) =>
    cfg g' = cfg g /\ round_no g' = round_no g /\ turn g' = turn g in
  same (game w) (game (snd (use_item_flow who w)))
  /\ same (game w) (game (snd (aim who w)))
  /\ same (game w) (game (snd (resolve_shot shooter target w))).
Proof.
  cbn zeta.
  set (I := fun g' => cfg g' = cfg (game w) /\ round_no g' = round_no (game w)
                      /\ turn g' = turn (game w)).
  assert (Ha : forall g who a, I g -> I (set_actor who a g)) by (by intros ? []).
  split; [|split].
  - by apply (frame_use_item_flow I).
  - by apply (frame_aim I).
  - by apply (frame_resolve_shot I).
Qed.

(** ** What the Burner Phone told *)

Lemma ka_upd_actor a f :
  (forall x, known_positions (knowledge (f x)) = known_positions (knowledge x)) ->
  preserves known_ahead (update (upd_actor a f)).
Proof.
  intros Hf. apply preserves_update. intros g H who k s. specialize (H who k s).
  destruct a, who; cbn in *; rewrite ?Hf; exact H.
Qed.

Lemma ka_log msg : preserves known_ahead (log msg).
Proof. apply preserves_update. by intros g H. Qed.

Lemma known_positions_pop_item iid x :
  known_positions (knowledge (snd (Actor.pop_item iid x))) = known_positions (knowledge x).
Proof. unfold Actor.pop_item. by destruct (decide _). Qed.

Lemma ka_pop a iid : preserves known_ahead (pop a iid).
Proof. apply ka_upd_actor. intros x. apply known_positions_pop_item. Qed.

(** A call on the shotgun that keeps the shells ahead of the cursor and
    does not move the cursor back. *)
Lemma ka_with_shotgun {A} (m : M Shotgun A) :
  (forall sg, let sg' := snd (m sg) in
     (index sg <= index sg')%nat
     /\ forall k, (index sg < k)%nat -> shells sg' !! k = shells sg !! k) ->
  preserves known_ahead (with_shotgun m).
Proof.
  intros Hm w H who k s Hk Hlt. unfold with_shotgun in *.
  specialize (Hm (shotgun (game w))). destruct (m (shotgun (game w))) as [r sg'].
  cbn in *. destruct Hm as [Hidx Hsh].
  assert (Hk' : known_positions (knowledge (actor who (game w))) !! k = Some s)
    by (by destruct who).
  assert (Hgoal : shells sg' !! k = Some s)
    by (rewrite Hsh by lia; apply (H who k s Hk'); lia).
  exact Hgoal.
Qed.

Lemma ka_peek : preserves known_ahead (with_shotgun Shotgun.peek_current).
Proof.
  apply ka_with_shotgun. intros sg. unfold Shotgun.peek_current.
  by destruct (shells sg !! index sg).
Qed.

Lemma ka_fire : preserves known_ahead (with_shotgun Shotgun.fire).
Proof.
  apply ka_with_shotgun. intros sg. unfold Shotgun.fire.
  destruct (_ <=? _)%nat; [done|]. destruct (shells sg !! index sg); [|done].
  cbn. split; [lia|done].
Qed.

Lemma ka_invert : preserves known_ahead (with_shotgun Shotgun.invert_current).
Proof.
  apply ka_with_shotgun. intros sg. unfold Shotgun.invert_current.
  destruct (_ <=? _)%nat; [done|]. destruct (shells sg !! index sg); [|done].
  cbn. split; [lia|]. intros k Hk. apply list_lookup_insert_ne. lia.
Qed.

Lemma ka_BurnerPhone user target : preserves known_ahead (BurnerPhone_use user target).
Proof.
  intros w H. unfold BurnerPhone_use, name_of. rewrite !run_get.
  destruct (_ <=? 1); [exact H|].
  unfold bind at 1, with_rng at 1, randint.
  destruct (_ <? 1); [exact H|]. cbn [bind randbelow ret]. rewrite run_get.
  cbn [game set_rng shotgun].
  match goal with |- context [shells _ !! ?i] => set (k0 := i) end.
  destruct (shells (shotgun (game w)) !! k0) as [s0|] eqn:Hs0; [|exact H].
  rewrite run_update. cbn [log update modify game set_game snd].
  intros who k s Hk Hlt.
  assert (Hcases : known_positions (knowledge (actor who (game w))) !! k = Some s
                   \/ (k = k0 /\ s = s0)).
  { destruct user, who; cbn in Hk; try (by left);
      (destruct (decide (k0 = k)) as [<-|Hne];
         [rewrite lookup_insert_eq in Hk; right; by simplify_eq
         |rewrite lookup_insert_ne in Hk by done; by left]). }
  assert (Hsg : forall g f t, shotgun (set_transcript t (upd_actor user f g)) = shotgun g)
    by (by destruct user).
  rewrite Hsg in *. destruct Hcases as [Hold|[-> ->]]; [by apply (H who)|exact Hs0].
Qed.

Ltac ka_leaf :=
  idtac;
  lazymatch goal with
  | |- preserves _ (with_shotgun Shotgun.peek_current) => apply ka_peek
  | |- preserves _ (with_shotgun Shotgun.fire) => apply ka_fire
  | |- preserves _ (with_shotgun Shotgun.eject_current) => apply ka_fire
  | |- preserves _ (with_shotgun Shotgun.invert_current) => apply ka_invert
  | |- preserves _ (log _) => apply ka_log
  | |- preserves _ (pop _ _) => apply ka_pop
  | |- preserves _ (set_known _ _) => apply ka_upd_actor; intros ?; reflexivity
  | |- preserves _ (update (upd_actor _ _)) => apply ka_upd_actor; intros ?; reflexivity
  end.

Lemma ka_item iid user target :
  iid <> ADRENALINE -> preserves known_ahead (item_use 0 iid user target).
Proof.
  intros Hne. destruct iid; try done; cbn [item_use]; try apply ka_BurnerPhone;
    unfold MagnifyingGlass_use, Beer_use, Handcuffs_use, HandSaw_use, Inverter_use,
      Cigarette_use;
    frame_with ka_leaf.
Qed.

Lemma ka_resolve_shot shooter target : preserves known_ahead (resolve_shot shooter target).
Proof. unfold resolve_shot. frame_with ka_leaf. Qed.

Lemma deal_items_to_fresh who w w' :
  deal_items_to who w = (Ok tt, w') ->
  knowledge (actor who (game w')) = Knowledge_new
  /\ knowledge (actor (other who) (game w')) = knowledge (actor (other who) (game w)).
Proof.
  unfold deal_items_to. rewrite run_update, run_get.
  unfold bind at 1, with_rng at 1.
  destruct (randint _ _ _) as [[k| |] r1]; try discriminate.
  unfold bind at 1, with_rng at 1. cbn [rng set_rng].
  destruct (sample all_items k r1) as [[drawn| |] r2]; try discriminate.
  rewrite run_update. intros [= <-]. by destruct who.
Qed.

Lemma deal_items_fresh w w' :
  deal_items w = (Ok tt, w') -> forall who, knowledge (actor who (game w')) = Knowledge_new.
Proof.
  unfold deal_items. unfold bind at 1.
  destruct (deal_items_to Player w) as [[[]| |] w1] eqn:H1; try discriminate.
  intros H2. apply deal_items_to_fresh in H1 as [Hp _].
  apply deal_items_to_fresh in H2 as [Hd Hpd]. cbn in Hp, Hd, Hpd.
  intros []; cbn; [by rewrite Hpd|exact Hd].
Qed.

Lemma fresh_known_ahead g :
  (forall who, knowledge (actor who g) = Knowledge_new) -> known_ahead g.
Proof. intros H who k s Hk. by rewrite H in Hk. Qed.

Lemma Game_init_known_ahead c inp r w : Game_init c inp r = Ok w -> known_ahead (game w).
Proof.
  unfold Game_init. destruct (Shotgun.load _ _ r) as [[sg| |] r']; try discriminate.
  match goal with |- context [deal_items ?w0] =>
    destruct (deal_items w0) as [[[]| |] w1] eqn:Hd
  end; intros Heq; simplify_eq.
  apply fresh_known_ahead. by apply (deal_items_fresh _ _ Hd).
Qed.

(** A turn that returns keeps what was told true: the item phase and the
    shot do, and a reload forgets everything. *)
Lemma turn_loop_known_ahead (w w' : World) :
  known_ahead (game w) -> turn_loop w = (Ok tt, w') -> known_ahead (game w').
Proof.
  intros H. unfold turn_loop. rewrite !run_get.
  generalize (turn (game w)). intros who.
  destruct (skip_next (actor who (game w))).
  { intros [= <-]. intros a k s Hk Hlt. pose proof (H a k s) as Ha.
    destruct who, a; cbn in *; auto. }
  rewrite run_get. destruct (Shotgun.remaining (shotgun (game w)) =? 0).
  - rewrite run_update. unfold log at 1. rewrite run_update, run_get.
    unfold bind at 1, with_rng at 1.
    destruct (Shotgun.load _ _ _) as [[sg| |] r1]; try discriminate.
    rewrite run_update. unfold bind at 1.
    match goal with |- context [deal_items ?w0] =>
      destruct (deal_items w0) as [[[]| |] w1] eqn:Hd
    end; try discriminate.
    intros [= <-]. apply fresh_known_ahead. intros a.
    pose proof (deal_items_fresh _ _ Hd a) as Ha. by destruct a.
  - pose proof (ei_use_item_flow known_ahead ka_log ka_pop ka_item who w H) as H1.
    unfold bind at 1. destruct (use_item_flow who w) as [[[]| |] w1]; try discriminate.
    pose proof (preserves_aim known_ahead who w1 H1) as H2.
    unfold bind at 1. destruct (aim who w1) as [[target| |] w2]; try discriminate.
    pose proof (ka_resolve_shot who target w2 H2) as H3.
    unfold bind at 1. destruct (resolve_shot who target w2) as [[keep| |] w3];
      try discriminate.
    destruct keep; intros [= <-]; [exact H3|].
    intros a k s Hk Hlt. pose proof (H3 a k s) as Ha. destruct a; cbn in *; auto.
Qed.

(** X22.  In every game that a play reaches between turns or inside an item
    phase, what an actor's [known_positions] says about a position ahead of
    the cursor is the shell that lies there. *)
Theorem known_positions_ahead (ph : Phase) (g : Game) :
  reachable ph g -> ph <> Crashed -> known_ahead g.
Proof.
  intros Hr.
  assert (Hinv : match ph with Crashed => True | _ => known_ahead g end);
    [|by destruct ph].
  induction Hr as [c inp r w Hinit
                  | w w' _ IH _ Hturn
                  | w e w' _ IH _ Hturn
                  | g _ IH _ _ _
                  | who w iid w' _ IH Hprompt
                  | who w iid r w' _ IH Hpop
                  | who w iid target r w' _ IH Huse].
  - by eapply Game_init_known_ahead.
  - by eapply turn_loop_known_ahead.
  - exact I.
  - exact IH.
  - pose proof (ei_prompt_choose_item known_ahead ka_pop who w IH) as H.
    by rewrite Hprompt in H.
  - pose proof (ka_pop who iid w IH) as H. by rewrite Hpop in H.
  - pose proof (ei_ITEM_REGISTRY_use known_ahead ka_log ka_pop ka_item iid who target w IH)
      as H.
    by rewrite Huse in H.
Qed.

Lemma known_positions_ahead_witness :
  known_positions (knowledge (player (game phone_world))) !! 1%nat = Some LIVE
  /\ known_ahead (game phone_world).
Proof.
  split; [reflexivity|].
  apply (known_positions_ahead (ItemPhase Player) (game phone_world) phone_world_reachable).
  discriminate.
Defined.

(** ** The items the AI leaves alone *)

Lemma filter_remove_first (Q : ItemId -> Prop) `{!forall x, Decision (Q x)} x l :
  ~ Q x -> filter Q (remove_first x l) = filter Q l.
Proof.
  intros Hx. induction l as [|y l IH]; [done|]. cbn [remove_first].
  destruct (decide (y = x)) as [->|].
  - by rewrite filter_cons_False.
  - by rewrite !filter_cons, IH.
Qed.

Section AiInventories.
Context (me : Who) (theirs mine : list ItemId).

Lemma ai_inv_upd_actor a f :
  (forall x, inventory (f x) = inventory x) ->
  preserves (ai_inventories me theirs mine) (update (upd_actor a f)).
Proof.
  intros Hf. apply preserves_update. intros g H. unfold ai_inventories in *.
  destruct a, me; cbn in *; by rewrite ?Hf.
Qed.

Lemma ai_inv_with_shotgun {A} (m : M Shotgun A) :
  preserves (ai_inventories me theirs mine) (with_shotgun m).
Proof.
  intros w H. unfold with_shotgun. destruct (m _). unfold ai_inventories in *.
  by destruct me.
Qed.

Lemma ai_inv_log msg : preserves (ai_inventories me theirs mine) (log msg).
Proof. apply preserves_update. intros g H. unfold ai_inventories in *. by destruct me. Qed.

Lemma ai_inv_pop iid :
  ~ ai_unused iid -> preserves (ai_inventories me theirs mine) (pop me iid).
Proof.
  intros Hiid. apply preserves_update. intros g [Ht Hm]. unfold ai_inventories.
  assert (Hf : filter ai_unused (inventory (snd (Actor.pop_item iid (actor me g))))
               = filter ai_unused (inventory (actor me g))).
  { unfold Actor.pop_item. destruct (decide _); [|done]. cbn.
    by apply filter_remove_first. }
  destruct me; cbn in *; by rewrite ?Hf.
Qed.

Ltac ai_inv_leaf :=
  idtac;
  lazymatch goal with
  | |- preserves _ (with_shotgun _) => apply ai_inv_with_shotgun
  | |- preserves _ (log _) => apply ai_inv_log
  | |- preserves _ (pop _ _) =>
      apply ai_inv_pop; unfold ai_unused; rewrite !elem_of_cons, elem_of_nil;
      intros [|[|[|[]]]]; discriminate
  | |- preserves _ (set_known _ _) => apply ai_inv_upd_actor; intros ?; reflexivity
  | |- preserves _ (update (upd_actor _ _)) => apply ai_inv_upd_actor; intros ?; reflexivity
  | |- preserves _ (ITEM_REGISTRY_use CIGARETTE ?u ?t) =>
      change (preserves (ai_inventories me theirs mine) (Cigarette_use u t));
      unfold Cigarette_use
  | |- preserves _ (ITEM_REGISTRY_use MAGNIFYING_GLASS ?u ?t) =>
      change (preserves (ai_inventories me theirs mine) (MagnifyingGlass_use u t));
      unfold MagnifyingGlass_use
  | |- preserves _ (ITEM_REGISTRY_use HAND_SAW ?u ?t) =>
      change (preserves (ai_inventories me theirs mine) (HandSaw_use u t));
      unfold HandSaw_use
  | |- preserves _ (ITEM_REGISTRY_use BEER ?u ?t) =>
      change (preserves (ai_inventories me theirs mine) (Beer_use u t));
      unfold Beer_use
  | |- preserves _ (ITEM_REGISTRY_use HANDCUFFS ?u ?t) =>
      change (preserves (ai_inventories me theirs mine) (Handcuffs_use u t));
      unfold Handcuffs_use
  end.

Lemma ai_inv_ai_maybe_use_item :
  preserves (ai_inventories me theirs mine) (ai_maybe_use_item me).
Proof. unfold ai_maybe_use_item, chance. frame_with ai_inv_leaf. Qed.

End AiInventories.

(** X23.  The item phase of the AI never touches the opponent's inventory,
    and of its own it never takes an Inverter, a Burner Phone or an
    Adrenaline: it has no rule to use them. *)
Theorem ai_item_phase_inventories (me : Who) (w : World) :
  let g := game w in
  let g' := game (snd (ai_maybe_use_item me w)) in
  inventory (actor (other me) g') = inventory (actor (other me) g)
  /\ filter ai_unused (inventory (actor me g')) = filter ai_unused (inventory (actor me g)).
Proof. cbn zeta. by apply ai_inv_ai_maybe_use_item. Qed.

(** ** The item prompt *)




(** ** The steal *)








(** The table of [human_steal_removes_two] is none that a play reaches. *)
Lemma steal_world_unreachable (ph : Phase) : ~ reachable ph (game steal_world).
Proof. intros Hr. by pose proof (reachable_ai ph _ Dealer Hr). Qed.
